(** * EPONA: a simulated link layer (frames, broadcast link, learning switch,
    adapter with address resolution).

    Shallow embedding of [src/Epona/epona.py] and [src/Epona/physical.py].
    Python [bytes] are lists of [Byte.byte], Python [int]s are [Z], [dict]s
    are [gmap]s, the attached-node [set] of a link is a [gset]; exceptions
    are the [Raise] case of [result]; objects that the code mutates are
    threaded explicitly.  A call that one object makes on another (a link
    on its receivers, a node on its link) is given by what it does as seen
    from the caller: how it ends, and what it leaves changed in the caller;
    nothing in the code catches an exception, so one that is raised in such
    a call comes out of the caller. *)

From Stdlib Require Import ZArith Lia List.
From Stdlib Require Import Strings.Byte.
From stdpp Require Import gmap list fin_maps.

Open Scope Z_scope.

(** ** Exceptions and the error monad *)

Inductive exn : Type :=
  | NoRouteToHost
  | OverflowError
  | AddressValueError
  | RecursionError
  | TypeError
  | ValueError
  | IndexError
  | AssertionError
  | KeyError
  | RuntimeError.

Inductive result (A : Type) : Type :=
  | Ok (a : A)
  | Raise (e : exn).
Arguments Ok {A} a.
Arguments Raise {A} e.

Definition rbind {A B : Type} (m : result A) (k : A → result B) : result B :=
  match m with
  | Ok a => k a
  | Raise e => Raise e
  end.

#[global] Instance result_ret : MRet result := λ A, Ok.
#[global] Instance result_bind : MBind result := λ A B k m, rbind m k.

(** ** Bytes and Python's integer codecs *)

Abbreviation bytes := (list byte).

#[global] Instance byte_eq_decision : EqDecision byte := Byte.byte_eq_dec.

Definition byte_to_Z (b : byte) : Z := Z.of_N (Byte.to_N b).

Definition byte_of_Z (z : Z) : byte :=
  default x00 (Byte.of_N (Z.to_N (z mod 256))).

#[global] Instance byte_countable : Countable byte.
Proof.
  refine (inj_countable' Byte.to_N (λ n, default x00 (Byte.of_N n)) _).
  intros b. by rewrite Byte.of_to_N.
Defined.

(** [bs[a:b]] for [0 <= a <= b]: Python slices never raise, they truncate. *)
Definition slice (a b : nat) (bs : bytes) : bytes := take (b - a) (drop a bs).

(** [int.from_bytes(bs, "big")] *)
Definition int_from_bytes (bs : bytes) : Z :=
  fold_left (λ acc b, acc * 256 + byte_to_Z b) bs 0.

(** The [len] low-order base-256 digits of [n], most significant first. *)
Fixpoint to_bytes_be (len : nat) (n : Z) : bytes :=
  match len with
  | O => []
  | S k => to_bytes_be k (n / 256) ++ [byte_of_Z n]
  end.

(** [n.to_bytes(len, "big")]: OverflowError on a negative [n] or on one that
    does not fit. *)
Definition int_to_bytes (n : Z) (len : nat) : result bytes :=
  if (0 <=? n) && (n <? 256 ^ Z.of_nat len)
  then Ok (to_bytes_be len n)
  else Raise OverflowError.

Definition BROADCAST_MAC : bytes := [xff; xff; xff; xff; xff; xff].
Definition MARE_PROTONUM : Z := 0x0806.

(** ** class Frame *)

Module Frame.

Record t : Type := mk {
  protocol : Z;
  dstMacAdr : bytes;
  sourceMacAdr : bytes;
  datagram : bytes;
  checksum : bytes
}.

Definition set_checksum (f : t) (c : bytes) : t :=
  mk (protocol f) (dstMacAdr f) (sourceMacAdr f) (datagram f) c.

(** [Frame.toBytes] *)
Definition toBytes (f : t) : result bytes :=
  p ← int_to_bytes (protocol f) 6;
  Ok ([] ++ p ++ dstMacAdr f ++ sourceMacAdr f ++ checksum f ++ datagram f).

(** The loop [for byte in checksumData: checksum ^= byte]. *)
Definition xor_bytes (data : bytes) : Z :=
  fold_left (λ acc b, Z.lxor acc (byte_to_Z b)) data 0.

(** [Frame.CreateChecksum]: empties the object's checksum field, and leaves
    it empty; returns the mutated object and the 4-byte checksum. *)
Definition CreateChecksum (f : t) : result (t * bytes) :=
  let f := set_checksum f [] in
  checksumData ← toBytes f;
  c ← int_to_bytes (xor_bytes checksumData) 4;
  Ok (f, c).

(** [Frame.__init__] *)
Definition init (protocol : Z) (dstMacAdr sourceMacAdr datagram : bytes)
  : result t :=
  let f := mk protocol dstMacAdr sourceMacAdr datagram [] in
  '(f, c) ← CreateChecksum f;
  Ok (set_checksum f c).

(** [Frame.toFrame] *)
Definition toFrame (byteStream : bytes) : result t :=
  let protocol := int_from_bytes (slice 0 6 byteStream) in
  let dstMacAdr := slice 6 12 byteStream in
  let sourceMacAdr := slice 12 18 byteStream in
  let checksum := slice 18 22 byteStream in
  let datagram := drop 22 byteStream in
  frame ← init protocol dstMacAdr sourceMacAdr datagram;
  Ok (set_checksum frame checksum).

(** [Frame.ConfirmChecksum]: the object after the call, and the verdict. *)
Definition ConfirmChecksum (f : t) : result (t * bool) :=
  let originalChecksum := checksum f in
  '(f, c) ← CreateChecksum f;
  Ok (f, bool_decide (c = originalChecksum)).

End Frame.

(** ** class BroadcastLink *)

(** What a caller may hand to [tx]: only [bytes] and [bytearray] are
    instances of [ByteString]. *)
Inductive pyobj : Type :=
  | PyBytes (b : bytes)
  | PyByteArray (b : bytes)
  | PyStr (s : bytes)
  | PyInt (n : Z).

Definition as_ByteString (o : pyobj) : option bytes :=
  match o with
  | PyBytes b | PyByteArray b => Some b
  | PyStr _ | PyInt _ => None
  end.

(** [random.randint(a, b)]: ValueError on an empty range; otherwise some
    value of [a..b], chosen here by the entropy [draw]. *)
Definition randint (draw : Z) (a b : Z) : result Z :=
  if b <? a then Raise ValueError else Ok (a + draw mod (b - a + 1)).

(** [bytes((byte,))] *)
Definition bytes_of_int (n : Z) : result bytes :=
  if (0 <=? n) && (n <? 256) then Ok [byte_of_Z n] else Raise ValueError.

(** [before + bytes((frame[pos] ^ (1 << bit),)) + after] *)
Definition flip_bit (frame : bytes) (pos : nat) (bit : Z) : result bytes :=
  match frame !! pos with
  | None => Raise IndexError
  | Some byte =>
      let before := take pos frame in
      let after := drop (pos + 1) frame in
      let byte := Z.lxor (byte_to_Z byte) (Z.shiftl 1 bit) in
      b ← bytes_of_int byte;
      Ok (before ++ b ++ after)
  end.

Module BroadcastLink.

Abbreviation node := nat.

Record t : Type := mk {
  nodes : gset node;
  corrupt : bool
}.

Definition init : t := mk ∅ false.

Definition attach (l : t) (n : node) : t := mk ({[n]} ∪ nodes l) (corrupt l).

(** [set.remove]: KeyError on a non-member, modelled as [None]. *)
Definition detach (l : t) (n : node) : option t :=
  if decide (n ∈ nodes l) then Some (mk (nodes l ∖ {[n]}) (corrupt l))
  else None.

Definition corrupt_next (l : t) : t := mk (nodes l) true.

(** The corruption step of [tx]; [d1] and [d2] are the two random draws. *)
Definition corrupt_frame (frame : bytes) (d1 d2 : Z) : result bytes :=
  pos ← randint d1 0 (Z.of_nat (length frame) - 1);
  bit ← randint d2 0 7;
  flip_bit frame (Z.to_nat pos) bit.

(** What [node.rx_link(self, frame)] does, seen from the link: it returns
    or it raises, and it may leave the link changed: a receiver that
    answers at once transmits on this same link before it returns, and any
    receiver may call [corrupt_next], or attach and detach nodes (an
    adapter that is unplugged when a frame reaches it).  The link taken and
    the link given back are the link before and after the call. *)
Definition receivers : Type := node → bytes → t → t * result ().

(** The loop [for node in self._nodes] of [tx]: the link after it, the
    [rx_link] calls made, in order, and the outcome.  An exception raised
    by a receiver ends the loop: that call is the last.  So does a change
    in the size of the set: Python raises RuntimeError when the loop asks
    for the next node, [size0] being the size when the loop started.  (A
    set changed without a change of size is gone through here as it was
    when the loop started; what Python does then depends on the layout of
    its hash table.) *)
Fixpoint tx_loop (rx_link : receivers) (sender : node) (frame : bytes)
    (size0 : nat) (todo : list node) (l : t)
  : t * list (node * bytes) * result () :=
  match todo with
  | [] => (l, [], Ok ())
  | n :: todo =>
      if decide (n ≠ sender) then
        match rx_link n frame l with
        | (l, Ok _) =>
            if decide (size (nodes l) = size0) then
              let '(l, calls, r) :=
                tx_loop rx_link sender frame size0 todo l in
              (l, (n, frame) :: calls, r)
            else (l, [(n, frame)], Raise RuntimeError)
        | (l, Raise e) => (l, [(n, frame)], Raise e)
        end
      else tx_loop rx_link sender frame size0 todo l
  end.

(** [BroadcastLink.tx].  Returns the link after the call (also when the call
    raises), the [rx_link] calls made, in order, and the outcome.  The flag
    is cleared by the last statement, which an exception does not reach.
    [elements] stands for the order, not specified, in which Python goes
    through the set.  The debug dump is left out. *)
Definition tx (rx_link : receivers) (l : t) (sender : node) (frame : pyobj)
    (d1 d2 : Z) : t * list (node * bytes) * result () :=
  if decide (sender ∈ nodes l) then
    match as_ByteString frame with
    | None => (l, [], Raise TypeError)
    | Some frame =>
        match (if corrupt l then corrupt_frame frame d1 d2 else Ok frame) with
        | Raise e => (l, [], Raise e)
        | Ok frame =>
            match tx_loop rx_link sender frame (size (nodes l))
                          (elements (nodes l)) l with
            | (l, calls, Ok _) => (mk (nodes l) false, calls, Ok ())
            | (l, calls, Raise e) => (l, calls, Raise e)
            end
        end
    end
  else (l, [], Raise AssertionError).

End BroadcastLink.

(** ** class MultiportNode / class EponaSwitch *)

Module EponaSwitch.

Abbreviation link := nat.

Record t : Type := mk {
  nports : Z;
  ports : list (option link);
  switchingTable : gmap bytes Z
}.

(** [MultiportNode.__init__] and [EponaSwitch.__init__] *)
Definition init (num_ports : Z) : t :=
  mk num_ports (replicate (Z.to_nat num_ports) None) ∅.

Definition set_table (sw : t) (tbl : gmap bytes Z) : t :=
  mk (nports sw) (ports sw) tbl.

(** A frame handed to [link.tx] through port [outport]. *)
Abbreviation sent := (Z * link * bytes)%type.

(** What the call [link.tx(self, frame)] does, seen from the switch: it
    returns or it raises (the link refuses the sender or the buffer, or a
    receiver raises), and, because the receivers run before it returns and
    may send frames of their own, which come back into this switch through
    [rx_link], it can leave the switch changed. *)
Definition link_tx : Type := sent → t → t * result ().

(** [nports] has no setter: whatever happens during the call, it stays. *)
Definition call_tx (tx : link_tx) (s : sent) (sw : t) : t * result () :=
  let '(sw', r) := tx s sw in
  (mk (nports sw) (ports sw') (switchingTable sw'), r).

(** [MultiportNode.forward]: the switch after the call, the [link.tx] call
    made, if any, and the outcome. *)
Definition forward (tx : link_tx) (sw : t) (outport : Z) (frame : bytes)
  : t * (list sent * result ()) :=
  if (0 <=? outport) && (outport <? Z.of_nat (length (ports sw))) then
    match ports sw !! Z.to_nat outport with
    | Some (Some link) =>
        let '(sw, r) := call_tx tx (outport, link, frame) sw in
        (sw, ([(outport, link, frame)], r))
    | _ => (sw, ([], Ok ()))
    end
  else (sw, ([], Raise IndexError)).

(** The loop of [EponaSwitch.broadcast]; [todo] bounds the iterations that
    remain, [nports - index].  An exception ends the loop. *)
Fixpoint broadcast_loop (tx : link_tx) (sw : t) (frame : bytes) (port : Z)
    (todo : nat) (index : Z) : t * (list sent * result ()) :=
  match todo with
  | O => (sw, ([], Ok ()))
  | S todo =>
      if index <? nports sw then
        match (if bool_decide (index ≠ port) then forward tx sw index frame
               else (sw, ([], Ok ()))) with
        | (sw, (out, Ok _)) =>
            let '(sw, (rest, r)) :=
              broadcast_loop tx sw frame port todo (index + 1) in
            (sw, (out ++ rest, r))
        | (sw, (out, Raise e)) => (sw, (out, Raise e))
        end
      else (sw, ([], Ok ()))
  end.

(** [EponaSwitch.broadcast] *)
Definition broadcast (tx : link_tx) (sw : t) (frame : bytes) (port : Z)
  : t * (list sent * result ()) :=
  broadcast_loop tx sw frame port (Z.to_nat (nports sw)) 0.

(** [EponaSwitch.rx]: the switch after the call, the [link.tx] calls it
    made, in order, and the outcome. *)
Definition rx (tx : link_tx) (sw : t) (port : Z) (frame : bytes)
  : t * (list sent * result ()) :=
  match Frame.toFrame frame with
  | Raise e => (sw, ([], Raise e))
  | Ok completeFrame =>
      match Frame.ConfirmChecksum completeFrame with
      | Raise e => (sw, ([], Raise e))
      | Ok (completeFrame, false) => (sw, ([], Ok ()))
      | Ok (completeFrame, true) =>
          match switchingTable sw !! Frame.dstMacAdr completeFrame with
          | Some learned =>
              if bool_decide (learned ≠ port)
              then forward tx sw learned frame
              else (sw, ([], Ok ()))
          | None =>
              let sw := set_table sw
                (<[Frame.sourceMacAdr completeFrame := port]>
                   (switchingTable sw)) in
              broadcast tx sw frame port
          end
      end
  end.

End EponaSwitch.

(** ** class ArpFrame *)

Module ArpFrame.

Record t : Type := mk {
  dstMacAdr : bytes;
  sourceMacAdr : bytes;
  dstIpAdr : bytes;
  sourceIpAdr : bytes;
  isSuccess : bytes
}.

(** The four ASCII characters of [b'0xff']. *)
Definition success_marker : bytes := [x30; x78; x66; x66].

(** [ArpFrame.__init__] *)
Definition init (dstMacAdr sourceMacAdr dstIpAdr sourceIpAdr : bytes)
    (isSuccessfulFlag : bool) : t :=
  mk dstMacAdr sourceMacAdr dstIpAdr sourceIpAdr
     (if isSuccessfulFlag then success_marker else []).

(** [ArpFrame.toFrame] *)
Definition toFrame (byteStream : bytes) : t :=
  let dstMacAdr := slice 0 6 byteStream in
  let sourceMacAdr := slice 6 12 byteStream in
  let dstIpAdr := slice 12 16 byteStream in
  let sourceIpAdr := slice 16 20 byteStream in
  let isSuccess := bool_decide (drop 20 byteStream ≠ []) in
  init dstMacAdr sourceMacAdr dstIpAdr sourceIpAdr isSuccess.

(** [ArpFrame.toBytes] *)
Definition toBytes (f : t) : bytes :=
  [] ++ dstMacAdr f ++ sourceMacAdr f ++ dstIpAdr f ++ sourceIpAdr f
     ++ isSuccess f.

End ArpFrame.

(** ** class Adapter / class EponaAdapter *)

Module EponaAdapter.

(** The read-only properties of an adapter: [hwaddr], [iface] (an
    [IPv4Interface]: address and prefix length) and [gateway]. *)
Record config : Type := mkConfig {
  hwaddr : bytes;
  iface_ip : Z;
  prefixlen : Z;
  gateway : Z
}.

(** What the adapter does to the outside: a frame handed to its link, a
    datagram handed to the upper layer, a timed wait on its event. *)
Inductive event : Type :=
  | EvTx (frame : bytes)
  | EvInput (protonum : Z) (dgram : bytes)
  | EvWait (millis : Z).

(** What the surroundings do at a moment at which the adapter lets go of
    control, inside [link.tx] or blocked in [timeout.wait]: the frames that
    the link hands to the adapter's [rx] at that moment, and then, for a
    call of [link.tx], how that call ends: it returns, or it raises (the
    link refuses the frame, or a receiver raises while it handles it; there
    is no [try] between that receiver and this adapter). *)
Record reaction : Type := mkReaction {
  arrivals : list bytes;
  outcome : result ()
}.

(** The mutable part of the adapter, and its surroundings: [inbox] lists
    the reactions to come, one for each later moment at which the adapter
    lets go of control; [trace] records what it did, oldest first. *)
Record state : Type := mkState {
  link : option nat;
  arpTable : gmap bytes bytes;
  arpMessageRecieved : bool;
  timeout : bool;
  inbox : list reaction;
  trace : list event
}.

Definition set_arpTable (tbl : gmap bytes bytes) (st : state) : state :=
  mkState (link st) tbl (arpMessageRecieved st) (timeout st) (inbox st)
          (trace st).
Definition set_arpMessageRecieved (b : bool) (st : state) : state :=
  mkState (link st) (arpTable st) b (timeout st) (inbox st) (trace st).
Definition set_timeout (b : bool) (st : state) : state :=
  mkState (link st) (arpTable st) (arpMessageRecieved st) b (inbox st)
          (trace st).
Definition set_inbox (i : list reaction) (st : state) : state :=
  mkState (link st) (arpTable st) (arpMessageRecieved st) (timeout st) i
          (trace st).
Definition add_event (e : event) (st : state) : state :=
  mkState (link st) (arpTable st) (arpMessageRecieved st) (timeout st)
          (inbox st) (trace st ++ [e]).

(** [EponaAdapter.__init__], unplugged. *)
Definition init (inbox : list reaction) : state :=
  mkState None ∅ false false inbox [].

(** Methods: state passing, with exceptions; the state at a raise is kept. *)
Definition M (A : Type) : Type := state → state * result A.

#[global] Instance M_ret : MRet M := λ A a st, (st, Ok a).
#[global] Instance M_bind : MBind M := λ A B k m st,
  match m st with
  | (st, Ok a) => k a st
  | (st, Raise e) => (st, Raise e)
  end.

Definition raise {A : Type} (e : exn) : M A := λ st, (st, Raise e).
Definition lift {A : Type} (r : result A) : M A := λ st, (st, r).
Definition get : M state := λ st, (st, Ok st).
Definition modify (f : state → state) : M () := λ st, (f st, Ok ()).

Definition ALL_ONES : Z := 2 ^ 32 - 1.

(** [IPv4Address(addr)] for [addr : bytes] *)
Definition IPv4Address (addr : bytes) : result Z :=
  if bool_decide (length addr = 4%nat) then Ok (int_from_bytes addr)
  else Raise AddressValueError.

(** [IPv4Address.packed] *)
Definition packed (ip : Z) : bytes := to_bytes_be 4 ip.

Section Methods.
Context (self : config).
(** [self.rx] and [self.output_ip] one level deeper in the call stack. *)
Context (rx_rec : bytes → M ()).
Context (output_ip_rec : Z → bytes → bytes → M ()).

Definition netmask : Z := Z.lxor ALL_ONES (Z.shiftr ALL_ONES (prefixlen self)).

(** [a in self.iface.network] *)
Definition in_network (a : Z) : bool :=
  bool_decide (Z.land a netmask = Z.land (iface_ip self) netmask).

(** The link calls [rx_link], hence [rx], once per frame; an exception
    raised by [rx] travels back through the link and its caller. *)
Fixpoint deliver (batch : list bytes) : M () :=
  match batch with
  | [] => mret ()
  | frame :: batch => rx_rec frame ;; deliver batch
  end.

(** Frames handed over by other threads while this one is blocked: an
    exception raised by [rx] ends that delivery in its own thread, and
    does not reach the call that waits. *)
Fixpoint deliver_detached (batch : list bytes) : M () :=
  match batch with
  | [] => mret ()
  | frame :: batch =>
      (λ st, ((rx_rec frame st).1, Ok ())) ;; deliver_detached batch
  end.

(** The call [self._link.tx(self, frame)]: the next reaction. *)
Definition link_call : M () :=
  st ← get;
  match inbox st with
  | [] => mret ()
  | r :: rest =>
      modify (set_inbox rest) ;; deliver (arrivals r) ;; lift (outcome r)
  end.

(** [Adapter.tx] *)
Definition tx (frame : bytes) : M () :=
  st ← get;
  match link st with
  | None => mret ()
  | Some _ => modify (add_event (EvTx frame)) ;; link_call
  end.

(** [EponaAdapter.output] *)
Definition output (protonum : Z) (dst dgram : bytes) : M () :=
  frame ← lift (Frame.init protonum dst (hwaddr self) dgram);
  b ← lift (Frame.toBytes frame);
  tx b.

(** [self.timeout.wait(0.1)]: returns at once when the event is set;
    otherwise the next reaction takes place while the call is blocked.  No
    call into the link is made here: of the reaction, only the arrivals
    count. *)
Definition wait : M () :=
  modify (add_event (EvWait 100)) ;;
  st ← get;
  if timeout st then mret ()
  else
    match inbox st with
    | [] => mret ()
    | r :: rest => modify (set_inbox rest) ;; deliver_detached (arrivals r)
    end.

(** [EponaAdapter.successfulArpMessageRecieved] *)
Definition successfulArpMessageRecieved : M () :=
  modify (set_arpMessageRecieved true) ;;
  modify (set_timeout true).

(** [EponaAdapter.arpFrameRecievedProcedure] *)
Definition arpFrameRecievedProcedure (frame : bytes) : M () :=
  f ← lift (Frame.toFrame frame);
  let completeFrame := ArpFrame.toFrame (Frame.datagram f) in
  if bool_decide (ArpFrame.dstIpAdr completeFrame = packed (iface_ip self))
  then
    modify (λ st, set_arpTable
      (<[ArpFrame.sourceIpAdr completeFrame :=
           ArpFrame.sourceMacAdr completeFrame]> (arpTable st)) st) ;;
    if bool_decide (ArpFrame.isSuccess completeFrame
                    = ArpFrame.success_marker)
       && bool_decide (ArpFrame.dstMacAdr completeFrame = hwaddr self)
    then successfulArpMessageRecieved
    else
      output_ip_rec MARE_PROTONUM (ArpFrame.sourceIpAdr completeFrame)
        (ArpFrame.toBytes
           (ArpFrame.init (ArpFrame.sourceMacAdr completeFrame)
              (hwaddr self) (ArpFrame.sourceIpAdr completeFrame)
              (packed (iface_ip self)) true))
  else mret ().

(** [EponaAdapter.rx] *)
Definition rx_body (frame : bytes) : M () :=
  completeFrame ← lift (Frame.toFrame frame);
  '(completeFrame, ok) ← lift (Frame.ConfirmChecksum completeFrame);
  if negb ok then mret ()
  else if bool_decide (Frame.protocol completeFrame = MARE_PROTONUM)
  then arpFrameRecievedProcedure frame
  else if bool_decide (hwaddr self = Frame.dstMacAdr completeFrame)
          || bool_decide (BROADCAST_MAC = Frame.dstMacAdr completeFrame)
  then modify (add_event (EvInput (Frame.protocol completeFrame)
                                  (Frame.datagram completeFrame)))
  else mret ().

(** The loop of [arpIpDiscoverProcess]. *)
Fixpoint discover_loop (arpFrameBytes : bytes) (count : nat) : M () :=
  match count with
  | O => raise NoRouteToHost
  | S count =>
      output MARE_PROTONUM BROADCAST_MAC arpFrameBytes ;;
      wait ;;
      st ← get;
      if arpMessageRecieved st
      then modify (set_arpMessageRecieved false)
      else discover_loop arpFrameBytes count
  end.

(** [EponaAdapter.arpIpDiscoverProcess] *)
Definition arpIpDiscoverProcess (addr : bytes) : M () :=
  let arpFrame :=
    ArpFrame.init (hwaddr self) (hwaddr self) addr (packed (iface_ip self))
                  false in
  let arpFrameBytes := ArpFrame.toBytes arpFrame in
  modify (set_timeout false) ;;
  discover_loop arpFrameBytes 3.

(** [EponaAdapter.output_ip] *)
Definition output_ip_body (protonum : Z) (addr dgram : bytes) : M () :=
  a ← lift (IPv4Address addr);
  st ← get;
  if negb (in_network a) then
    (if bool_decide (arpTable st !! packed (gateway self) = None)
     then arpIpDiscoverProcess (packed (gateway self))
     else mret ()) ;;
    output_ip_rec protonum (packed (gateway self)) dgram
  else
    match arpTable st !! addr with
    | Some mac => output protonum mac dgram
    | None =>
        arpIpDiscoverProcess addr ;;
        output_ip_rec protonum addr dgram
    end.
End Methods.

(** The two re-entrant methods; [depth] is the room left on Python's call
    stack, and running out of it is a RecursionError. *)
Fixpoint output_ip (self : config) (depth : nat) {struct depth}
  : Z → bytes → bytes → M () :=
  match depth with
  | O => λ _ _ _, raise RecursionError
  | S d => output_ip_body self (rx self d) (output_ip self d)
  end
with rx (self : config) (depth : nat) {struct depth} : bytes → M () :=
  match depth with
  | O => λ _, raise RecursionError
  | S d => rx_body self (output_ip self d)
  end.

End EponaAdapter.

(** ** class MultiportNode: plugging, and dispatch of received frames *)

Module Ports.
Import EponaSwitch.

(** The calls a node makes on a link object when it is plugged or
    unplugged: [link.attach(self)] and [link.detach(self)]. *)
Inductive link_op : Type :=
  | OpAttach (l : link)
  | OpDetach (l : link).

Definition set_ports (sw : t) (ps : list (option link)) : t :=
  mk (nports sw) ps (switchingTable sw).

(** [portnum in range(len(self._ports))] *)
Definition valid_port (sw : t) (portnum : Z) : bool :=
  (0 <=? portnum) && (portnum <? Z.of_nat (length (ports sw))).

(** [MultiportNode.unplug]: the node after the call, the call made on the
    link, if any, and the outcome.  [link_detach] is the outcome of
    [link.detach(self)]: on a [BroadcastLink] it is KeyError when the node is
    not in the link's set.  The slot is emptied before that call. *)
Definition unplug (link_detach : link → result ()) (sw : t) (portnum : Z)
  : t * (list link_op * result ()) :=
  if valid_port sw portnum then
    match ports sw !! Z.to_nat portnum with
    | Some (Some lnk) =>
        (set_ports sw (<[Z.to_nat portnum := None]> (ports sw)),
         ([OpDetach lnk], link_detach lnk))
    | _ => (sw, ([], Ok ()))
    end
  else (sw, ([], Raise IndexError)).

(** [MultiportNode.plug]; [link_attach] is the outcome of
    [link.attach(self)].  When [unplug] raises, the new link is neither
    stored nor attached to. *)
Definition plug (link_detach link_attach : link → result ()) (sw : t)
    (portnum : Z) (lnk : link) : t * (list link_op * result ()) :=
  if valid_port sw portnum then
    match unplug link_detach sw portnum with
    | (sw, (ops, Ok _)) =>
        (set_ports sw (<[Z.to_nat portnum := Some lnk]> (ports sw)),
         (ops ++ [OpAttach lnk], link_attach lnk))
    | (sw, (ops, Raise e)) => (sw, (ops, Raise e))
    end
  else (sw, ([], Raise IndexError)).

(** [self._ports.index(link)]: the first port that holds [link]. *)
Fixpoint index_of (lnk : link) (ps : list (option link)) : option nat :=
  match ps with
  | [] => None
  | p :: ps =>
      if decide (p = Some lnk) then Some O
      else S <$> index_of lnk ps
  end.

(** [MultiportNode.rx_link], with [EponaSwitch.rx] as the [rx] method. *)
Definition rx_link (tx : link_tx) (sw : t) (lnk : link) (frame : bytes)
  : t * (list sent * result ()) :=
  match index_of lnk (ports sw) with
  | None => (sw, ([], Raise AssertionError))
  | Some inport => rx tx sw (Z.of_nat inport) frame
  end.

End Ports.

(** ** class Repeater *)

Module Repeater.
Import EponaSwitch.

(** The loop of [Repeater.rx] over [range(self.nports)].  A repeater is a
    [MultiportNode]: of the record, only [nports] and [ports] are looked
    at.  An exception ends the loop. *)
Fixpoint rx_loop (tx : link_tx) (hub : t) (inport : Z) (frame : bytes)
    (outports : list Z) : t * (list sent * result ()) :=
  match outports with
  | [] => (hub, ([], Ok ()))
  | outport :: outports =>
      match (if bool_decide (outport ≠ inport)
             then forward tx hub outport frame
             else (hub, ([], Ok ()))) with
      | (hub, (out, Ok _)) =>
          let '(hub, (rest, r)) := rx_loop tx hub inport frame outports in
          (hub, (out ++ rest, r))
      | (hub, (out, Raise e)) => (hub, (out, Raise e))
      end
  end.

(** [Repeater.rx] *)
Definition rx (tx : link_tx) (hub : t) (inport : Z) (frame : bytes)
  : t * (list sent * result ()) :=
  rx_loop tx hub inport frame (seqZ 0 (nports hub)).

End Repeater.

(** ** class Adapter: plugging, and dispatch of received frames *)

Module AdapterLink.
Import EponaAdapter.

Definition set_link (l : option nat) (st : state) : state :=
  mkState l (arpTable st) (arpMessageRecieved st) (timeout st) (inbox st)
          (trace st).

(** [Adapter.unplug]: the adapter afterwards, the [detach] call made on
    the link, if any, and the outcome.  [link_detach] is the outcome of
    [link.detach(self)]; the link is forgotten only after that call has
    returned. *)
Definition unplug (link_detach : nat → result ()) (st : state)
  : state * (list Ports.link_op * result ()) :=
  match link st with
  | None => (st, ([], Ok ()))
  | Some l =>
      match link_detach l with
      | Ok _ => (set_link None st, ([Ports.OpDetach l], Ok ()))
      | Raise e => (st, ([Ports.OpDetach l], Raise e))
      end
  end.

(** [Adapter.plug]; [link_attach] is the outcome of [link.attach(self)].
    The new link is stored before it is attached to. *)
Definition plug (link_detach link_attach : nat → result ()) (l : nat)
    (st : state) : state * (list Ports.link_op * result ()) :=
  match (if link st is Some _ then unplug link_detach st
         else (st, ([], Ok ()))) with
  | (st, (ops, Ok _)) =>
      (set_link (Some l) st, (ops ++ [Ports.OpAttach l], link_attach l))
  | (st, (ops, Raise e)) => (st, (ops, Raise e))
  end.

(** [Adapter.rx_link] *)
Definition rx_link (self : config) (depth : nat) (l : nat) (frame : bytes)
  : M () :=
  λ st, if decide (link st = Some l) then rx self depth frame st
        else (st, Raise AssertionError).

End AdapterLink.

(** * Notions used in the statements *)

Module FrameSpec.
Import Frame.

(** Every frame object has gone through [Frame.__init__], which raises on a
    protocol number that does not fit 6 bytes. *)
Definition wf (f : t) : Prop := 0 ≤ protocol f < 2 ^ 48.

(** XOR of the serialised frame without its checksum field. *)
Definition body_xor (f : t) : Z :=
  xor_bytes (to_bytes_be 6 (protocol f) ++ dstMacAdr f ++ sourceMacAdr f
             ++ datagram f).

Definition expected_checksum (f : t) : bytes :=
  [x00; x00; x00; byte_of_Z (body_xor f)].

(** The byte that replaces [b] when bit number [bit] is flipped. *)
Definition flipped (b : byte) (bit : Z) : byte :=
  byte_of_Z (Z.lxor (byte_to_Z b) (Z.shiftl 1 bit)).


End FrameSpec.

Module LinkSpec.
Import BroadcastLink.

(** The [rx_link] calls that carry [buf] to everybody but [sender]. *)
Definition calls_to_others (l : t) (sender : node) (buf : bytes)
  : list (node * bytes) :=
  (λ n, (n, buf)) <$> filter (λ n, n ≠ sender) (elements (nodes l)).

Definition link12 : t := attach (attach init 1%nat) 2%nat.





(** A receiver that changes the set of attached nodes changes its size: it
    attaches nodes or it detaches nodes, but does not replace nodes by as
    many others during one callback. *)
Definition never_swaps (rx_link : receivers) : Prop :=
  ∀ n buf l, nodes (rx_link n buf l).1 = nodes l
             ∨ size (nodes (rx_link n buf l).1) ≠ size (nodes l).

(** The receiver hands the buffer on, returns, and leaves the set of
    attached nodes as it is. *)
Definition takes (rx_link : receivers) (n : node) (buf : bytes) : Prop :=
  ∀ l, (rx_link n buf l).2 = Ok () ∧ nodes (rx_link n buf l).1 = nodes l.

End LinkSpec.

Module SwitchSpec.
Import EponaSwitch.

(** What holds of every switch built by [init] and driven through
    [rx_link]: one slot per port, and only real ports in the table. *)
Definition wf (sw : t) : Prop :=
  Z.of_nat (length (ports sw)) = nports sw ∧
  map_Forall (λ _ p, 0 ≤ p < nports sw) (switchingTable sw).

(** What goes out when [frame] is forwarded through port [i]: one [tx] on
    the link plugged there, nothing on an empty port. *)
Definition out_port (sw : t) (i : Z) (frame : bytes) : list sent :=
  match ports sw !! Z.to_nat i with
  | Some (Some link) => [(i, link, frame)]
  | _ => []
  end.

(** Flooding: out of every port but [q], in port order. *)
Definition flood (sw : t) (q : Z) (frame : bytes) : list sent :=
  flat_map (λ i, out_port sw i frame)
           (filter (λ i, i ≠ q) (seqZ 0 (nports sw))).

(** No frame comes back into the switch while a link transmits for it:
    the call [link.tx] leaves the switch as it is. *)
Definition passive (tx : link_tx) : Prop := ∀ s sw, (tx s sw).1 = sw.

(** How the call [link.tx] for [s] ends when the switch is [sw]. *)
Definition outcome_of (tx : link_tx) (sw : t) (s : sent) : result () :=
  (tx s sw).2.

(** Of the calls in [plan], made in order, those that are made, and how it
    ends: the first call that raises is the last one made. *)
Fixpoint served (outcome : sent → result ()) (plan : list sent)
  : list sent * result () :=
  match plan with
  | [] => ([], Ok ())
  | s :: plan =>
      match outcome s with
      | Ok _ => let '(calls, r) := served outcome plan in (s :: calls, r)
      | Raise e => ([s], Raise e)
      end
  end.

(** Links that transmit, return, and hand nothing back. *)
Definition quiet : link_tx := λ _ sw, (sw, Ok ()).

(** Links of which the one on port [i] raises [e], nothing coming back. *)
Definition broken_at (i : Z) (e : exn) : link_tx :=
  λ s sw, (sw, if decide (s.1.1 = i) then Raise e else Ok ()).


Definition frame_ex : bytes :=
  [x00; x00; x00; x00; x10; x03; x01; x01; x01; x01; x01; x01;
   x02; x02; x02; x02; x02; x02; x00; x00; x00; x12; x68; x69].

Definition switch_ex : t :=
  mk 3 [Some 7%nat; None; Some 9%nat] {[ [x01; x01; x01; x01; x01; x01] := 2 ]}.




End SwitchSpec.

Module AdapterSpec.
Import EponaAdapter.

(** The request frame that [arpIpDiscoverProcess] broadcasts for [target]. *)
Definition request_payload (self : config) (target : bytes) : bytes :=
  ArpFrame.toBytes
    (ArpFrame.init (hwaddr self) (hwaddr self) target
                   (packed (iface_ip self)) false).

Definition request_frame (self : config) (target : bytes) : bytes :=
  to_bytes_be 6 MARE_PROTONUM ++ BROADCAST_MAC ++ hwaddr self
  ++ FrameSpec.expected_checksum
       (Frame.mk MARE_PROTONUM BROADCAST_MAC (hwaddr self)
                 (request_payload self target) [])
  ++ request_payload self target.

(** A frame on which the resolution handler acts: checksum-valid, carrying
    the resolution protocol number, and addressed to this adapter's IP. *)
Definition resolution_for_me (self : config) (frame : bytes) : bool :=
  match Frame.toFrame frame with
  | Ok f =>
      match Frame.ConfirmChecksum f with
      | Ok (f', true) =>
          bool_decide (Frame.protocol f' = MARE_PROTONUM)
          && bool_decide
               (ArpFrame.dstIpAdr (ArpFrame.toFrame (Frame.datagram f))
                = packed (iface_ip self))
      | _ => false
      end
  | Raise _ => false
  end.

(** Nothing that is to come concerns this adapter: no frame that arrives
    is a resolution frame for it, and every call into the link returns. *)
Definition silent (self : config) (inbox : list reaction) : Prop :=
  Forall (λ r, Forall (λ frame, resolution_for_me self frame = false)
                      (arrivals r)
               ∧ outcome r = Ok ()) inbox.

Definition add_events (evs : list event) (st : state) : state :=
  mkState (link st) (arpTable st) (arpMessageRecieved st) (timeout st)
          (inbox st) (trace st ++ evs).

Definition is_input (e : event) : bool :=
  match e with EvInput _ _ => true | _ => false end.

(** The events of a trace other than deliveries to the upper layer. *)
Definition actions (evs : list event) : list event :=
  filter (λ e, is_input e = false) evs.

(** The state after some events and some inbox consumption, nothing else
    having changed. *)
Definition upd (evs : list event) (ib : list reaction) (st : state)
  : state :=
  mkState (link st) (arpTable st) (arpMessageRecieved st) (timeout st)
          ib (trace st ++ evs).

(** One attempt: the request if a link is plugged, then the wait. *)
Definition attempt (self : config) (target : bytes) (st : state)
  : list event :=
  (if link st is Some _ then [EvTx (request_frame self target)]
   else [])
  ++ [EvWait 100].

Definition grows {A : Type} (m : M A) : Prop :=
  ∀ (st st' : state) (r : result A),
    m st = (st', r) → dom (arpTable st) ⊆ dom (arpTable st').

(** The address that [output_ip] resolves for [addr]: [addr] itself inside
    the adapter's subnet, the gateway outside of it. *)
Definition next_hop (self : config) (addr : bytes) : result bytes :=
  a ← IPv4Address addr;
  Ok (if in_network self a then addr else packed (gateway self)).

Definition encode (p : Z) (dst src dgram : bytes) : bytes :=
  match (f ← Frame.init p dst src dgram; Frame.toBytes f) with
  | Ok b => b
  | Raise _ => []
  end.

(** Host A, 10.23.42.1/21, gateway 10.23.40.1. *)
Definition hostA : config :=
  mkConfig [x65; x50; x6f; x4e; x61; x7e] 0x0a172a01 21 0x0a172801.

Definition hwC : bytes := [xff; x74; x65; x73; x74; xfe].

Definition ipC : bytes := [x0a; x17; x2a; x03].

Definition hwGateway : bytes := [x02; x00; x00; x00; x00; x01].

Definition off_subnet : bytes := [x0a; x17; x31; xe0].

Definition nobody : bytes := [x0a; x17; x29; x0b].

(** C answers A's request: a unicast reply with the success marker. *)
Definition reply_from_C : bytes :=
  encode MARE_PROTONUM (hwaddr hostA) hwC
    (ArpFrame.toBytes
       (ArpFrame.init (hwaddr hostA) hwC (packed (iface_ip hostA)) ipC true)).


(** The frames [frames] arrive, and the call into the link returns. *)
Definition arrive (frames : list bytes) : reaction :=
  mkReaction frames (Ok ()).


(** An ordinary broadcast datagram. *)
Definition hello : bytes := encode 0xf00f BROADCAST_MAC hwC [x68; x69].

Definition plugged (tbl : gmap bytes bytes) (inbox : list reaction)
  : state :=
  mkState (Some 0%nat) tbl false false inbox [].

(** [hello] with the lowest bit of its last payload byte flipped. *)
Definition hello_corrupted : bytes :=
  match flip_bit hello 23 0 with Ok b => b | Raise _ => [] end.

End AdapterSpec.

Module SwitchExtraSpec.
Import EponaSwitch Ports.

(** What is required of every frame a switch sends on for a frame received
    on port [q]: it leaves by another, real port, on the link plugged
    there, and carries the received bytes. *)
Definition sent_ok (sw : t) (q : Z) (frame : bytes) (s : sent) : Prop :=
  s.1.1 ≠ q ∧ 0 ≤ s.1.1 < nports sw ∧
  ports sw !! Z.to_nat s.1.1 = Some (Some s.1.2) ∧ s.2 = frame.

(** One operation on a switch: a [plug] or an [unplug], whether it returns
    or raises, or a frame handed over by a link through [rx_link].  A frame
    that comes back into the switch while it is sending is a step of its
    own. *)
Definition step (sw sw' : t) : Prop :=
  (∃ d a p l, sw' = (plug d a sw p l).1) ∨
  (∃ d p, sw' = (unplug d sw p).1) ∨
  (∃ tx l frame, SwitchSpec.passive tx ∧ sw' = (rx_link tx sw l frame).1).

(** A valid frame from host 03:03:03:03:03:03 to host 02:02:02:02:02:02. *)
Definition frame_out : bytes :=
  [x00; x00; x00; x00; x10; x03; x02; x02; x02; x02; x02; x02;
   x03; x03; x03; x03; x03; x03; x00; x00; x00; x17; x6f; x6b].

(** A valid frame back, from 02:02:02:02:02:02 to 03:03:03:03:03:03. *)
Definition frame_back : bytes :=
  [x00; x00; x00; x00; x10; x03; x03; x03; x03; x03; x03; x03;
   x02; x02; x02; x02; x02; x02; x00; x00; x00; x17; x6f; x6b].

(** A three-port switch with links 7 and 9 on ports 0 and 2, nothing
    learned yet. *)
Definition switch_fresh : t := mk 3 [Some 7%nat; None; Some 9%nat] ∅.

(** The [detach] call that frees port [p], if a link is plugged there. *)
Definition detach_ops (sw : t) (p : Z) : list link_op :=
  match ports sw !! Z.to_nat p with
  | Some (Some old) => [OpDetach old]
  | _ => []
  end.

(** How [link.detach(self)] ends for the link on port [p]; without a link
    there, the call is not made. *)
Definition detach_outcome (link_detach : link → result ()) (sw : t) (p : Z)
  : result () :=
  match ports sw !! Z.to_nat p with
  | Some (Some old) => link_detach old
  | _ => Ok ()
  end.

(** [link.detach(self)] on broadcast links, [links] giving the link
    objects and [self] being the switch as a node: KeyError when the link
    does not have the switch in its set. *)
Definition detach_on (links : link → BroadcastLink.t)
    (self : BroadcastLink.node) (l : link) : result () :=
  if BroadcastLink.detach (links l) self is Some _ then Ok ()
  else Raise KeyError.

(** A three-port switch with link 7 on ports 0 and 2. *)
Definition switch_shared : t := mk 3 [Some 7%nat; None; Some 7%nat] ∅.

(** The switches that [EponaSwitch(n)] can become. *)
Definition reachable (n : Z) (sw : t) : Prop := rtc step (init n) sw.

End SwitchExtraSpec.

Module ExtraSpec.
Import EponaAdapter AdapterSpec.

(** Decoding followed by checksum verification, as both [rx] methods do
    first. *)
Definition verify (bs : bytes) : result bool :=
  f ← Frame.toFrame bs;
  '(_, ok) ← Frame.ConfirmChecksum f;
  Ok ok.

(** [addr] is a 4-byte address inside the adapter's own subnet. *)
Definition on_subnet (self : config) (addr : bytes) : Prop :=
  ∃ a, IPv4Address addr = Ok a ∧ in_network self a = true.

(** The payload and the frame with which [responder] answers the request
    of the host with hardware address [asker_mac] and address [asker_ip]:
    a unicast frame carrying the success marker. *)
Definition reply_payload (responder : config) (asker_mac asker_ip : bytes)
  : bytes :=
  ArpFrame.toBytes
    (ArpFrame.init asker_mac (hwaddr responder) asker_ip
                   (packed (iface_ip responder)) true).

Definition reply_frame (responder : config) (asker_mac asker_ip : bytes)
  : bytes :=
  encode MARE_PROTONUM asker_mac (hwaddr responder)
         (reply_payload responder asker_mac asker_ip).

(** Receivers that are adapters, all of them configured as [self] and in
    state [st]: what each does with a buffer is what its [rx] does. *)
Definition adapters_like (self : config) (st : state)
  : BroadcastLink.receivers :=
  λ _ buf l, (l, (rx self 1 buf st).2).

(** Every receiver is an adapter: it hands the buffer to its [rx], and
    leaves the link alone. *)
Definition adapters (rx_link : BroadcastLink.receivers) : Prop :=
  ∀ n buf l, ∃ (B : config) (d : nat) (stB : state),
    rx_link n buf l = (l, (rx B (S d) buf stB).2).

(** Host C, 10.23.42.3/21, on the subnet of host A. *)
Definition hostC : config := mkConfig hwC 0x0a172a03 21 0x0a172801.

(** A host of another subnet, 192.168.0.9/24, with hardware address
    02:00:00:00:00:09. *)
Definition hostFar : config :=
  mkConfig [x02; x00; x00; x00; x00; x09] 0xc0a80009 24 0xc0a80001.

(** A host whose gateway lies outside its own subnet. *)
Definition hostLost : config :=
  mkConfig [x65; x50; x6f; x4e; x61; x7e] 0x0a172a01 21 0xc0a80001.

End ExtraSpec.

(** * Facts about bytes and the integer codecs *)

Lemma Ok_inj {A : Type} (a b : A) : Ok a = Ok b → a = b.
Proof. by intros [= ->]. Qed.

Lemma byte_to_Z_range (b : byte) : 0 ≤ byte_to_Z b < 256.
Proof.
  unfold byte_to_Z. pose proof (Byte.to_N_bounded b). lia.
Qed.

Lemma byte_to_of_Z (z : Z) : byte_to_Z (byte_of_Z z) = z mod 256.
Proof.
  unfold byte_to_Z, byte_of_Z.
  pose proof (Z.mod_pos_bound z 256 ltac:(lia)) as Hm.
  destruct (Byte.of_N (Z.to_N (z mod 256))) as [b|] eqn:E; simpl.
  - apply Byte.to_of_N in E. rewrite E. lia.
  - apply Byte.of_N_None_iff in E. lia.
Qed.

Lemma byte_of_to_Z (b : byte) : byte_of_Z (byte_to_Z b) = b.
Proof.
  unfold byte_of_Z. rewrite Z.mod_small by apply byte_to_Z_range.
  unfold byte_to_Z. by rewrite N2Z.id, Byte.of_to_N.
Qed.

Lemma byte_to_Z_inj (a b : byte) : byte_to_Z a = byte_to_Z b → a = b.
Proof.
  intros H. rewrite <- (byte_of_to_Z a), <- (byte_of_to_Z b). by rewrite H.
Qed.

Lemma length_to_bytes_be (len : nat) (n : Z) :
  length (to_bytes_be len n) = len.
Proof.
  revert n. induction len as [|len IH]; intros n; simpl; [done|].
  rewrite length_app, IH. simpl. lia.
Qed.

Lemma int_from_bytes_snoc (l : bytes) (b : byte) :
  int_from_bytes (l ++ [b]) = int_from_bytes l * 256 + byte_to_Z b.
Proof. unfold int_from_bytes. by rewrite fold_left_app. Qed.

Lemma int_from_bytes_bound (bs : bytes) :
  0 ≤ int_from_bytes bs < 256 ^ Z.of_nat (length bs).
Proof.
  induction bs as [|b bs IH] using rev_ind; [done|].
  rewrite int_from_bytes_snoc, length_app. simpl.
  replace (Z.of_nat (length bs + 1)) with (Z.of_nat (length bs) + 1) by lia.
  rewrite Z.pow_add_r by lia. change (256 ^ 1) with 256.
  pose proof (byte_to_Z_range b). lia.
Qed.

Lemma int_from_to_be (len : nat) (n : Z) :
  0 ≤ n < 256 ^ Z.of_nat len → int_from_bytes (to_bytes_be len n) = n.
Proof.
  revert n. induction len as [|len IH]; intros n Hn.
  - simpl in *. unfold int_from_bytes. simpl. lia.
  - simpl to_bytes_be. rewrite int_from_bytes_snoc, byte_to_of_Z.
    replace (Z.of_nat (S len)) with (Z.of_nat len + 1) in Hn by lia.
    rewrite Z.pow_add_r in Hn by lia. change (256 ^ 1) with 256 in Hn.
    rewrite IH.
    + pose proof (Z.div_mod n 256 ltac:(lia)). lia.
    + split; [apply Z.div_pos; lia|].
      apply Z.div_lt_upper_bound; lia.
Qed.

Lemma to_from_be (bs : bytes) :
  to_bytes_be (length bs) (int_from_bytes bs) = bs.
Proof.
  induction bs as [|b bs IH] using rev_ind; [done|].
  rewrite length_app, int_from_bytes_snoc. simpl.
  replace (length bs + 1)%nat with (S (length bs)) by lia. simpl.
  pose proof (byte_to_Z_range b) as Hb.
  f_equal.
  - rewrite Z.div_add_l by lia. rewrite Z.div_small by lia.
    by rewrite Z.add_0_r.
  - f_equal. apply byte_to_Z_inj. rewrite byte_to_of_Z.
    rewrite Z.add_comm, Z.mod_add by lia. by rewrite Z.mod_small.
Qed.

Lemma int_to_bytes_ok (n : Z) (len : nat) :
  0 ≤ n < 256 ^ Z.of_nat len → int_to_bytes n len = Ok (to_bytes_be len n).
Proof.
  intros Hn. unfold int_to_bytes.
  destruct (Z.leb_spec 0 n), (Z.ltb_spec n (256 ^ Z.of_nat len)); simpl;
    (done || lia).
Qed.

Lemma int_to_bytes_raise (n : Z) (len : nat) :
  ¬ (0 ≤ n < 256 ^ Z.of_nat len) → int_to_bytes n len = Raise OverflowError.
Proof.
  intros Hn. unfold int_to_bytes.
  destruct (Z.leb_spec 0 n), (Z.ltb_spec n (256 ^ Z.of_nat len)); simpl;
    (done || lia).
Qed.

(** One byte in a 4-byte big-endian field: three zero bytes, then the byte. *)
Lemma to_bytes_be_4_byte (c : Z) :
  0 ≤ c < 256 → to_bytes_be 4 c = [x00; x00; x00; byte_of_Z c].
Proof.
  intros Hc. simpl. rewrite (Z.div_small c 256) by lia. reflexivity.
Qed.

Lemma lxor_byte_range (a b : Z) :
  0 ≤ a < 256 → 0 ≤ b < 256 → 0 ≤ Z.lxor a b < 256.
Proof.
  intros Ha Hb.
  assert (0 ≤ Z.lxor a b) as Hnn by (apply Z.lxor_nonneg; lia).
  split; [done|].
  destruct (decide (Z.lxor a b = 0)) as [->|Hne]; [lia|].
  change 256 with (2 ^ 8). apply Z.log2_lt_pow2; [lia|].
  pose proof (Z.log2_lxor a b ltac:(lia) ltac:(lia)) as Hl.
  assert (∀ x, 0 ≤ x < 256 → Z.log2 x < 8) as Hlog.
  { intros x Hx. destruct (decide (x = 0)) as [->|]; [done|].
    apply Z.log2_lt_pow2; lia. }
  pose proof (Hlog a Ha). pose proof (Hlog b Hb). lia.
Qed.

Lemma xor_fold_acc (l : bytes) (acc : Z) :
  fold_left (λ acc b, Z.lxor acc (byte_to_Z b)) l acc
  = Z.lxor acc (Frame.xor_bytes l).
Proof.
  unfold Frame.xor_bytes. revert acc.
  induction l as [|b l IH]; intros acc; simpl.
  - by rewrite Z.lxor_0_r.
  - rewrite IH, (IH (Z.lxor 0 _)), Z.lxor_0_l. by rewrite Z.lxor_assoc.
Qed.

Lemma xor_bytes_cons (b : byte) (l : bytes) :
  Frame.xor_bytes (b :: l) = Z.lxor (byte_to_Z b) (Frame.xor_bytes l).
Proof.
  unfold Frame.xor_bytes at 1. simpl. rewrite xor_fold_acc.
  by rewrite Z.lxor_0_l.
Qed.

Lemma xor_bytes_app (l1 l2 : bytes) :
  Frame.xor_bytes (l1 ++ l2)
  = Z.lxor (Frame.xor_bytes l1) (Frame.xor_bytes l2).
Proof.
  unfold Frame.xor_bytes at 1. rewrite fold_left_app.
  fold (Frame.xor_bytes l1). apply xor_fold_acc.
Qed.

Lemma xor_bytes_range (l : bytes) : 0 ≤ Frame.xor_bytes l < 256.
Proof.
  induction l as [|b l IH]; [done|].
  rewrite xor_bytes_cons. apply lxor_byte_range; [apply byte_to_Z_range|done].
Qed.

(** * The frame codec *)

Module FrameFacts.
Import Frame FrameSpec.

Lemma toBytes_ok (f : t) :
  wf f →
  toBytes f = Ok (to_bytes_be 6 (protocol f) ++ dstMacAdr f ++ sourceMacAdr f
                  ++ checksum f ++ datagram f).
Proof.
  intros Hwf. unfold toBytes.
  rewrite int_to_bytes_ok by (change (256 ^ Z.of_nat 6) with (2 ^ 48); done).
  reflexivity.
Qed.

Lemma CreateChecksum_ok (f : t) :
  wf f → CreateChecksum f = Ok (set_checksum f [], expected_checksum f).
Proof.
  intros Hwf. unfold CreateChecksum.
  rewrite toBytes_ok by done. cbn [mbind result_bind rbind].
  cbn [set_checksum protocol dstMacAdr sourceMacAdr datagram checksum app].
  fold (body_xor f).
  pose proof (xor_bytes_range
    (to_bytes_be 6 (protocol f) ++ dstMacAdr f ++ sourceMacAdr f
     ++ datagram f)) as Hr. fold (body_xor f) in Hr.
  rewrite int_to_bytes_ok by (change (256 ^ Z.of_nat 4) with (2 ^ 32); lia).
  cbn [rbind]. by rewrite to_bytes_be_4_byte.
Qed.

Lemma ConfirmChecksum_ok (f : t) :
  wf f →
  ConfirmChecksum f
  = Ok (set_checksum f [], bool_decide (expected_checksum f = checksum f)).
Proof.
  intros Hwf. unfold ConfirmChecksum. by rewrite CreateChecksum_ok.
Qed.

Lemma init_ok (p : Z) (d s g : bytes) :
  0 ≤ p < 2 ^ 48 →
  init p d s g = Ok (mk p d s g (expected_checksum (mk p d s g []))).
Proof.
  intros Hp. unfold init. by rewrite CreateChecksum_ok.
Qed.

Lemma init_wf (p : Z) (d s g : bytes) (f : t) : init p d s g = Ok f → wf f.
Proof.
  intros H. destruct (decide (0 ≤ p < 2 ^ 48)) as [Hp|Hp].
  - rewrite init_ok in H by done. by injection H as <-.
  - exfalso. unfold init, CreateChecksum, toBytes in H.
    cbn [set_checksum protocol] in H.
    by rewrite int_to_bytes_raise in H.
Qed.

Lemma slice_length_le (a b : nat) (bs : bytes) :
  (length (slice a b bs) ≤ b - a)%nat.
Proof. unfold slice. rewrite length_take. lia. Qed.

(** Decoding never raises: Python slices of a short buffer are short or
    empty, and the protocol number read from at most 6 bytes fits. *)
Lemma toFrame_ok (bs : bytes) :
  toFrame bs = Ok (mk (int_from_bytes (slice 0 6 bs)) (slice 6 12 bs)
                      (slice 12 18 bs) (drop 22 bs) (slice 18 22 bs)).
Proof.
  unfold toFrame. rewrite init_ok; [done|].
  pose proof (int_from_bytes_bound (slice 0 6 bs)) as Hb.
  pose proof (slice_length_le 0 6 bs) as Hl.
  assert (256 ^ Z.of_nat (length (slice 0 6 bs)) ≤ 256 ^ 6).
  { apply Z.pow_le_mono_r; lia. }
  change (2 ^ 48) with (256 ^ 6). lia.
Qed.

Lemma toFrame_wf (bs : bytes) (f : t) : toFrame bs = Ok f → wf f.
Proof.
  unfold toFrame. destruct (init _ _ _ _) as [f0|] eqn:E; [|done].
  simpl. intros [= <-]. apply init_wf in E. exact E.
Qed.

(** Encoding followed by decoding, for a frame whose address fields have 6
    bytes each and whose checksum field has 4. *)
Lemma toFrame_toBytes (f : t) (bs : bytes) :
  wf f → length (dstMacAdr f) = 6%nat → length (sourceMacAdr f) = 6%nat →
  length (checksum f) = 4%nat →
  toBytes f = Ok bs → toFrame bs = Ok f.
Proof.
  intros Hwf Hd Hs Hc. rewrite toBytes_ok by done.
  destruct f as [p d s g c]. unfold wf in Hwf.
  cbn [protocol dstMacAdr sourceMacAdr checksum datagram] in *.
  assert (int_from_bytes (to_bytes_be 6 p) = p) as Hrt.
  { apply int_from_to_be. by change (256 ^ Z.of_nat 6) with (2 ^ 48). }
  pose proof (length_to_bytes_be 6 p) as Hp.
  revert Hrt Hp. generalize (to_bytes_be 6 p). intros P Hrt Hp [= <-].
  rewrite toFrame_ok.
  assert (slice 0 6 (P ++ d ++ s ++ c ++ g) = P) as ->.
  { unfold slice. rewrite drop_0. simpl. by rewrite take_app_length'. }
  assert (slice 6 12 (P ++ d ++ s ++ c ++ g) = d) as ->.
  { unfold slice. rewrite drop_app_length' by done.
    simpl. by rewrite take_app_length'. }
  assert (slice 12 18 (P ++ d ++ s ++ c ++ g) = s) as ->.
  { unfold slice. rewrite (app_assoc _ d).
    rewrite drop_app_length' by (rewrite length_app; lia).
    simpl. by rewrite take_app_length'. }
  assert (slice 18 22 (P ++ d ++ s ++ c ++ g) = c) as ->.
  { unfold slice. rewrite (app_assoc _ d), (app_assoc _ s).
    rewrite drop_app_length' by (rewrite !length_app; lia).
    simpl. by rewrite take_app_length'. }
  assert (drop 22 (P ++ d ++ s ++ c ++ g) = g) as ->.
  { rewrite (app_assoc _ d), (app_assoc _ s), (app_assoc _ c).
    by rewrite drop_app_length' by (rewrite !length_app; lia). }
  by rewrite Hrt.
Qed.



(** C10: verification is not pure.  [ConfirmChecksum] leaves the frame with
    an empty checksum field; encoding the frame afterwards gives the header
    and payload without the 4 checksum bytes; and a second verification of
    the same object returns false, whatever the first one returned. *)
Theorem ConfirmChecksum_clears_checksum (f : t) :
  wf f →
  ∃ (f1 : t) (ok : bool),
    ConfirmChecksum f = Ok (f1, ok) ∧
    checksum f1 = [] ∧
    toBytes f1 = Ok (to_bytes_be 6 (protocol f) ++ dstMacAdr f
                     ++ sourceMacAdr f ++ datagram f) ∧
    ConfirmChecksum f1 = Ok (f1, false).
Proof.
  intros Hwf. exists (set_checksum f []). eexists.
  split; [by apply ConfirmChecksum_ok|].
  split; [done|].
  split; [by rewrite toBytes_ok|].
  by rewrite ConfirmChecksum_ok.
Qed.

Lemma ConfirmChecksum_clears_checksum_witness :
  ∃ (f1 : t) (ok : bool),
    ConfirmChecksum (mk 0x0806 BROADCAST_MAC BROADCAST_MAC [x01]
                        [x00; x00; x00; x0f]) = Ok (f1, ok) ∧
    checksum f1 = [] ∧
    toBytes f1 = Ok (to_bytes_be 6 0x0806 ++ BROADCAST_MAC ++ BROADCAST_MAC
                     ++ [x01]) ∧
    ConfirmChecksum f1 = Ok (f1, false).
Proof.
  apply (ConfirmChecksum_clears_checksum
           (mk 0x0806 BROADCAST_MAC BROADCAST_MAC [x01] [x00; x00; x00; x0f])).
  unfold wf. simpl. lia.
Defined.




End FrameFacts.

(** * Single-bit errors *)

Module BitFlip.
Import Frame FrameSpec FrameFacts.

Ltac bitwise :=
  apply Z.bits_inj'; intros ? ?; rewrite ?Z.lxor_spec;
  repeat match goal with |- context [Z.testbit ?a ?n] =>
    destruct (Z.testbit a n) end; reflexivity.

Lemma lxor_swap (x b b' : Z) :
  Z.lxor b' x = Z.lxor (Z.lxor b x) (Z.lxor b b').
Proof. bitwise. Qed.

Lemma lxor_move (a x d : Z) : Z.lxor a (Z.lxor x d) = Z.lxor (Z.lxor a x) d.
Proof. bitwise. Qed.

Lemma lxor_cancel (v d : Z) : Z.lxor v (Z.lxor v d) = d.
Proof. bitwise. Qed.

Lemma lxor_changes (v d : Z) : d ≠ 0 → Z.lxor v d ≠ v.
Proof.
  intros Hd Heq. apply Hd. rewrite <- (lxor_cancel v d), Heq.
  apply Z.lxor_nilpotent.
Qed.

Lemma bit_range (bit : Z) : 0 ≤ bit < 8 → 0 < Z.shiftl 1 bit < 256.
Proof.
  intros Hb. rewrite Z.shiftl_1_l.
  assert (bit = 0 ∨ bit = 1 ∨ bit = 2 ∨ bit = 3 ∨ bit = 4 ∨ bit = 5
          ∨ bit = 6 ∨ bit = 7) as Hc by lia.
  destruct Hc as [->|[->|[->|[->|[->|[->|[->| ->]]]]]]]; done.
Qed.

Lemma flipped_to_Z (b : byte) (bit : Z) :
  0 ≤ bit < 8 →
  byte_to_Z (flipped b bit) = Z.lxor (byte_to_Z b) (Z.shiftl 1 bit).
Proof.
  intros Hb. unfold flipped. rewrite byte_to_of_Z. apply Z.mod_small.
  apply lxor_byte_range; [apply byte_to_Z_range|].
  pose proof (bit_range bit Hb). lia.
Qed.

Lemma flipped_ne (b : byte) (bit : Z) : 0 ≤ bit < 8 → flipped b bit ≠ b.
Proof.
  intros Hb Heq. apply (f_equal byte_to_Z) in Heq.
  rewrite flipped_to_Z in Heq by done.
  apply lxor_changes in Heq; [done|]. pose proof (bit_range bit Hb). lia.
Qed.

(** [flip_bit] succeeds on a position inside the buffer and a bit number of
    a byte, and replaces one byte. *)
Lemma flip_bit_ok (frame : bytes) (pos : nat) (bit : Z) (b : byte) :
  frame !! pos = Some b → 0 ≤ bit < 8 →
  flip_bit frame pos bit = Ok (<[pos := flipped b bit]> frame).
Proof.
  intros Hpos Hb. unfold flip_bit. rewrite Hpos. unfold bytes_of_int.
  pose proof (flipped_to_Z b bit Hb) as Hf.
  pose proof (byte_to_Z_range (flipped b bit)) as Hr. rewrite Hf in Hr.
  destruct (Z.leb_spec 0 (Z.lxor (byte_to_Z b) (Z.shiftl 1 bit)));
    [|lia].
  destruct (Z.ltb_spec (Z.lxor (byte_to_Z b) (Z.shiftl 1 bit)) 256);
    [|lia].
  simpl. f_equal. fold (flipped b bit).
  rewrite insert_take_drop by (by eapply lookup_lt_Some).
  by rewrite Nat.add_1_r.
Qed.

Lemma xor_bytes_insert (l : bytes) (i : nat) (b b' : byte) :
  l !! i = Some b →
  xor_bytes (<[i := b']> l)
  = Z.lxor (xor_bytes l) (Z.lxor (byte_to_Z b) (byte_to_Z b')).
Proof.
  revert i. induction l as [|x l IH]; intros i Hi; [done|].
  destruct i as [|i]; simpl in *.
  - injection Hi as ->. rewrite !xor_bytes_cons. apply lxor_swap.
  - rewrite !xor_bytes_cons, (IH i Hi). apply lxor_move.
Qed.

Lemma slice_slice (a b c : nat) (bs : bytes) :
  (a ≤ b)%nat → (b ≤ c)%nat → slice a b bs ++ slice b c bs = slice a c bs.
Proof.
  intros Hab Hbc. unfold slice.
  replace (drop b bs) with (drop (b - a) (drop a bs))
    by (rewrite drop_drop; f_equal; lia).
  rewrite take_take_drop. f_equal. lia.
Qed.

(** Verification of a decoded buffer, split as 18 header bytes, 4 checksum
    bytes and the payload. *)
Lemma verdict_split (A C G : bytes) :
  length A = 18%nat → length C = 4%nat →
  ∃ f f' : t,
    toFrame (A ++ C ++ G) = Ok f ∧
    ConfirmChecksum f
    = Ok (f', bool_decide
                ([x00; x00; x00; byte_of_Z (xor_bytes (A ++ G))] = C)).
Proof.
  intros HA HC. eexists. eexists. split; [apply toFrame_ok|].
  rewrite ConfirmChecksum_ok by (eapply toFrame_wf, toFrame_ok).
  f_equal. f_equal. unfold expected_checksum, body_xor.
  cbn [protocol dstMacAdr sourceMacAdr datagram checksum].
  set (bs := A ++ C ++ G).
  assert (length (slice 0 6 bs) = 6%nat) as H6.
  { unfold slice, bs. rewrite length_take, length_drop, !length_app. lia. }
  assert (to_bytes_be 6 (int_from_bytes (slice 0 6 bs)) = slice 0 6 bs) as ->.
  { rewrite <- H6 at 1. apply to_from_be. }
  rewrite !app_assoc, !slice_slice by lia.
  assert (slice 0 18 bs = A) as ->.
  { unfold slice, bs. rewrite drop_0. simpl. by rewrite take_app_length'. }
  assert (drop 22 bs = G) as ->.
  { unfold bs. rewrite app_assoc.
    by rewrite drop_app_length' by (rewrite length_app; lia). }
  assert (slice 18 22 bs = C) as ->.
  { unfold slice, bs. rewrite drop_app_length' by done.
    simpl. by rewrite take_app_length'. }
  reflexivity.
Qed.

Lemma checksum_byte_changes (l : bytes) (i : nat) (b : byte) (bit : Z) :
  l !! i = Some b → 0 ≤ bit < 8 →
  byte_of_Z (xor_bytes (<[i := flipped b bit]> l)) ≠ byte_of_Z (xor_bytes l).
Proof.
  intros Hi Hb Heq. apply (f_equal byte_to_Z) in Heq.
  rewrite !byte_to_of_Z in Heq.
  rewrite !Z.mod_small in Heq by apply xor_bytes_range.
  rewrite (xor_bytes_insert l i b) in Heq by done.
  rewrite flipped_to_Z, lxor_cancel in Heq by done.
  apply lxor_changes in Heq; [done|]. pose proof (bit_range bit Hb). lia.
Qed.

(** C2: take the encoding of a frame built from a protocol number below
    2^48, two 6-byte hardware addresses and any payload; flip any one bit of
    it (byte [pos], bit [bit]); the result decodes to a frame that fails
    checksum verification. *)
Theorem single_bit_flip_detected
    (p : Z) (d s g : bytes) (f : t) (bs : bytes) (pos : nat) (bit : Z) :
  init p d s g = Ok f → toBytes f = Ok bs →
  length d = 6%nat → length s = 6%nat →
  (pos < length bs)%nat → 0 ≤ bit < 8 →
  ∃ (bs' : bytes) (f' f'' : t),
    flip_bit bs pos bit = Ok bs' ∧
    toFrame bs' = Ok f' ∧
    ConfirmChecksum f' = Ok (f'', false).
Proof.
  intros Hinit Henc Hd Hs Hpos Hbit.
  pose proof (init_wf _ _ _ _ _ Hinit) as Hwf.
  assert (0 ≤ p < 2 ^ 48) as Hp.
  { destruct (decide (0 ≤ p < 2 ^ 48)) as [|Hn]; [done|].
    unfold init, CreateChecksum, toBytes in Hinit.
    cbn [set_checksum protocol] in Hinit.
    by rewrite int_to_bytes_raise in Hinit. }
  rewrite init_ok in Hinit by done. apply Ok_inj in Hinit. subst f.
  rewrite toBytes_ok in Henc by done. apply Ok_inj in Henc. subst bs.
  clear Hwf. unfold expected_checksum, body_xor in *.
  cbn [protocol dstMacAdr sourceMacAdr datagram checksum] in *.
  pose proof (length_to_bytes_be 6 p) as HP.
  revert Hpos HP. generalize (to_bytes_be 6 p). intros P Hpos HP.
  assert (∀ X, P ++ d ++ s ++ X = (P ++ d ++ s) ++ X) as Hassoc
    by (intros X; by rewrite <- !app_assoc).
  rewrite !Hassoc in Hpos |- *. clear Hassoc.
  assert (length (P ++ d ++ s) = 18%nat) as HA
    by (rewrite !length_app; lia).
  revert Hpos HA. generalize (P ++ d ++ s). intros A Hpos HA.
  set (C := [x00; x00; x00; byte_of_Z (xor_bytes (A ++ g))]) in *.
  destruct (lookup_lt_is_Some_2 _ _ Hpos) as [b Hb].
  rewrite (flip_bit_ok _ _ _ b Hb Hbit).
  destruct (decide (pos < 18)%nat) as [Hlt|Hge];
    [|destruct (decide (pos < 22)%nat) as [Hlt|Hge2]].
  - (* the flipped bit is in the protocol number or an address *)
    rewrite lookup_app_l in Hb by lia.
    rewrite insert_app_l by lia.
    destruct (verdict_split (<[pos := flipped b bit]> A) C g) as (f1 & f2 & H1 & H2);
      [by rewrite length_insert|done|].
    exists (<[pos := flipped b bit]> A ++ C ++ g), f1, f2.
    split; [done|]. split; [done|]. rewrite H2. f_equal. f_equal.
    apply bool_decide_eq_false. unfold C. intros [= Heq].
    rewrite <- insert_app_l in Heq by lia.
    eapply checksum_byte_changes; [|done|exact Heq].
    by rewrite lookup_app_l by lia.
  - (* the flipped bit is in the checksum field *)
    rewrite lookup_app_r in Hb by lia.
    rewrite lookup_app_l in Hb by (simpl; lia).
    rewrite insert_app_r_alt by lia.
    rewrite insert_app_l by (simpl; lia).
    destruct (verdict_split A (<[(pos - length A)%nat := flipped b bit]> C) g)
      as (f1 & f2 & H1 & H2); [done|by rewrite length_insert|].
    eexists. exists f1, f2.
    split; [done|]. split; [done|]. rewrite H2. f_equal. f_equal.
    apply bool_decide_eq_false. fold C. intros Heq.
    assert (C !! (pos - length A)%nat = Some (flipped b bit)) as Hc.
    { rewrite Heq at 1. apply list_lookup_insert_eq.
      apply lookup_lt_Some in Hb. done. }
    rewrite Hb in Hc. injection Hc as Hc. symmetry in Hc.
    by apply flipped_ne in Hc.
  - (* the flipped bit is in the payload *)
    rewrite lookup_app_r in Hb by lia.
    rewrite lookup_app_r in Hb by (simpl; lia).
    rewrite insert_app_r_alt by lia.
    rewrite insert_app_r_alt by (simpl; lia).
    destruct (verdict_split A C
                (<[(pos - length A - length C)%nat := flipped b bit]> g))
      as (f1 & f2 & H1 & H2); [done|done|].
    eexists. exists f1, f2.
    split; [done|]. split; [done|]. rewrite H2. f_equal. f_equal.
    apply bool_decide_eq_false. unfold C at 2. intros [= Heq].
    rewrite <- insert_app_r in Heq.
    eapply checksum_byte_changes; [|done|exact Heq].
    rewrite lookup_app_r by lia.
    rewrite <- Hb. f_equal. change (length C) with 4%nat. lia.
Qed.

Lemma single_bit_flip_detected_witness :
  ∃ (f : t) (bs : bytes),
    init 0xbe42 BROADCAST_MAC [x65; x50; x6f; x4e; x61; x7e] [x68; x69]
      = Ok f ∧ toBytes f = Ok bs ∧
    ∃ (bs' : bytes) (f' f'' : t),
      flip_bit bs 21 3 = Ok bs' ∧
      toFrame bs' = Ok f' ∧
      ConfirmChecksum f' = Ok (f'', false).
Proof.
  eexists. eexists. split; [reflexivity|]. split; [reflexivity|].
  eapply (single_bit_flip_detected 0xbe42 BROADCAST_MAC
            [x65; x50; x6f; x4e; x61; x7e] [x68; x69] _ _ 21 3).
  - reflexivity.
  - reflexivity.
  - reflexivity.
  - reflexivity.
  - simpl. lia.
  - lia.
Defined.



End BitFlip.

(** * The broadcast link *)

Module LinkFacts.
Import BroadcastLink FrameSpec LinkSpec BitFlip.

Lemma randint_in_range (draw a b : Z) :
  a ≤ b → ∃ r, randint draw a b = Ok r ∧ a ≤ r ≤ b.
Proof.
  intros Hab. unfold randint. destruct (Z.ltb_spec b a); [lia|].
  eexists. split; [done|].
  pose proof (Z.mod_pos_bound draw (b - a + 1) ltac:(lia)). lia.
Qed.


(** The loop of [tx]: the calls made are the planned ones, in order, up to
    the first after which the loop ends; all of them when every receiver
    returns and leaves the set of attached nodes as it is. *)
Lemma tx_loop_spec (rx_link : receivers) (sender : node) (frame : bytes)
    (todo : list node) (l0 l : t) :
  never_swaps rx_link → nodes l = nodes l0 →
  ∃ (l' : t) (calls : list (node * bytes)) (r : result ()),
    tx_loop rx_link sender frame (size (nodes l0)) todo l = (l', calls, r) ∧
    calls `prefix_of` ((λ n, (n, frame)) <$> filter (λ n, n ≠ sender) todo) ∧
    (r = Ok () →
       calls = ((λ n, (n, frame)) <$> filter (λ n, n ≠ sender) todo) ∧
       nodes l' = nodes l0) ∧
    (∀ e, r = Raise e →
       ∃ n l1, last calls = Some (n, frame) ∧ nodes l1 = nodes l0 ∧
         (rx_link n frame l1 = (l', Raise e) ∨
          (e = RuntimeError ∧ rx_link n frame l1 = (l', Ok ()) ∧
           size (nodes l') ≠ size (nodes l0)))) ∧
    ((∀ n, n ∈ todo → n ≠ sender → takes rx_link n frame) → r = Ok ()).
Proof.
  intros Hres. revert l. induction todo as [|n todo IH]; intros l Hl.
  - exists l, [], (Ok ()). by repeat split.
  - cbn [tx_loop]. rewrite filter_cons.
    destruct (decide (n ≠ sender)) as [Hn|Hn].
    + destruct (rx_link n frame l) as [l1 [[]|e]] eqn:Hrx.
      * destruct (decide (size (nodes l1) = size (nodes l0))) as [Hsz|Hsz].
        -- assert (nodes l1 = nodes l0) as Hl1.
           { destruct (Hres n frame l) as [Hk|Hk]; rewrite Hrx in Hk;
               cbn [fst] in Hk; [by rewrite Hk|].
             by rewrite Hl in Hk. }
           destruct (IH l1 Hl1)
             as (l' & calls & r & -> & Hpre & Hall & Hlast & Hret).
           exists l', ((n, frame) :: calls), r.
           split; [done|]. rewrite fmap_cons. split; [|split; [|split]].
           ++ by apply prefix_cons.
           ++ intros Hr. destruct (Hall Hr) as [-> Hk]. done.
           ++ intros e Hr. destruct (Hlast e Hr) as (m & l2 & Hlst & Hm).
              exists m, l2. split; [|done].
              destruct calls as [|c calls]; [done|]. exact Hlst.
           ++ intros Hok. apply Hret. intros m Hm Hne.
              apply Hok; [by apply list_elem_of_further|done].
        -- exists l1, [(n, frame)], (Raise RuntimeError).
           split; [done|]. rewrite fmap_cons. split; [|split; [|split]].
           ++ apply prefix_cons, prefix_nil.
           ++ done.
           ++ intros e' [= <-]. exists n, l. split; [done|].
              split; [done|]. by right.
           ++ intros Hok.
              destruct (Hok n (list_elem_of_here _ _) Hn l) as [_ Hnodes].
              rewrite Hrx in Hnodes. cbn [fst] in Hnodes.
              by rewrite Hnodes, Hl in Hsz.
      * exists l1, [(n, frame)], (Raise e).
        split; [done|]. rewrite fmap_cons. split; [|split; [|split]].
        -- apply prefix_cons, prefix_nil.
        -- done.
        -- intros e' [= <-]. exists n, l. split; [done|].
           split; [done|]. by left.
        -- intros Hok.
           destruct (Hok n (list_elem_of_here _ _) Hn l) as [Hr _].
           by rewrite Hrx in Hr.
    + destruct (IH l Hl)
        as (l' & calls & r & -> & Hpre & Hall & Hlast & Hret).
      exists l', calls, r. split; [done|]. repeat split; try done.
      * by apply Hall.
      * by apply Hall.
      * intros Hok. apply Hret. intros m Hm Hne.
        apply Hok; [by apply list_elem_of_further|done].
Qed.



Lemma link12_sender : 1%nat ∈ nodes link12.
Proof. unfold link12, attach. simpl. set_solver. Qed.





(** The corruption step draws a position in [0 .. len(frame) - 1]: on an
    empty buffer with the flag set the call raises ValueError, nothing is
    delivered and the flag stays set. *)
Example tx_corrupt_empty_buffer (rx_link : receivers) :
  tx rx_link (corrupt_next link12) 1%nat (PyBytes []) 9 10
  = (corrupt_next link12, [], Raise ValueError).
Proof.
  unfold tx. rewrite decide_True by exact link12_sender. reflexivity.
Qed.






End LinkFacts.

(** * The learning switch *)

Module SwitchFacts.
Import EponaSwitch SwitchSpec.

Lemma init_switch_wf (n : Z) : 0 ≤ n → wf (init n).
Proof.
  intros Hn. split; simpl.
  - rewrite length_replicate. lia.
  - apply map_Forall_empty.
Qed.

Lemma call_tx_passive (tx : link_tx) (s : sent) (sw : t) :
  passive tx → call_tx tx s sw = (sw, outcome_of tx sw s).
Proof.
  intros Hp. unfold call_tx, outcome_of. specialize (Hp s sw).
  destruct (tx s sw) as [sw' r]. simpl in *. subst sw'. by destruct sw.
Qed.

Lemma served_app (outcome : sent → result ()) (a b : list sent) :
  served outcome (a ++ b)
  = match served outcome a with
    | (ca, Ok _) => let '(cb, r) := served outcome b in (ca ++ cb, r)
    | (ca, Raise e) => (ca, Raise e)
    end.
Proof.
  induction a as [|s a IH]; simpl.
  - by destruct (served outcome b).
  - destruct (outcome s) as [[]|e]; [|done]. rewrite IH.
    destruct (served outcome a) as [ca [[]|e]]; [|done].
    by destruct (served outcome b).
Qed.


(** The calls made are the planned ones, in order, up to the first that
    raises. *)
Lemma served_spec (outcome : sent → result ()) (plan : list sent) :
  ∃ (calls : list sent) (r : result ()),
    served outcome plan = (calls, r) ∧
    calls `prefix_of` plan ∧
    (r = Ok () → calls = plan) ∧
    (∀ e, r = Raise e → ∃ s, last calls = Some s ∧ outcome s = Raise e).
Proof.
  induction plan as [|s plan IH].
  - exists [], (Ok ()). by repeat split.
  - cbn [served]. destruct (outcome s) as [[]|e] eqn:Hs.
    + destruct IH as (calls & r & -> & Hpre & Hall & Hlast).
      exists (s :: calls), r. split; [done|]. split; [|split].
      * by apply prefix_cons.
      * intros Hr. by rewrite Hall.
      * intros e Hr. destruct (Hlast e Hr) as (s' & Hl & Ho).
        exists s'. split; [|done].
        destruct calls as [|c calls]; [done|]. exact Hl.
    + exists [s], (Raise e). split; [done|]. split; [|split].
      * apply prefix_cons, prefix_nil.
      * done.
      * intros e' [= <-]. by exists s.
Qed.

Lemma forward_served (tx : link_tx) (sw : t) (i : Z) (frame : bytes) :
  passive tx → 0 ≤ i < Z.of_nat (length (ports sw)) →
  forward tx sw i frame = (sw, served (outcome_of tx sw) (out_port sw i frame)).
Proof.
  intros Hp Hi. unfold forward, out_port.
  destruct (Z.leb_spec 0 i), (Z.ltb_spec i (Z.of_nat (length (ports sw))));
    try lia.
  simpl. destruct (ports sw !! Z.to_nat i) as [[l|]|]; try done.
  rewrite call_tx_passive by done. cbn [served].
  by destruct (outcome_of tx sw (i, l, frame)) as [[]|e].
Qed.

Lemma broadcast_loop_served (tx : link_tx) (sw : t) (frame : bytes) (q : Z)
    (todo : nat) (index : Z) :
  passive tx → Z.of_nat (length (ports sw)) = nports sw →
  0 ≤ index → index + Z.of_nat todo = nports sw →
  broadcast_loop tx sw frame q todo index
  = (sw, served (outcome_of tx sw)
           (flat_map (λ i, out_port sw i frame)
              (filter (λ i, i ≠ q) (seqZ index (Z.of_nat todo))))).
Proof.
  intros Hp Hlen. revert index.
  induction todo as [|todo IH]; intros index Hidx Hsum; [done|].
  cbn [broadcast_loop].
  destruct (Z.ltb_spec index (nports sw)); [|lia].
  replace (Z.of_nat (S todo)) with (Z.succ (Z.of_nat todo)) by lia.
  rewrite (seqZ_cons index) by lia.
  replace (Z.pred (Z.succ (Z.of_nat todo))) with (Z.of_nat todo) by lia.
  replace (Z.succ index) with (index + 1) by lia.
  rewrite filter_cons.
  case_bool_decide as Hq.
  - destruct (decide (index ≠ q)); [|done].
    rewrite forward_served by (done || lia).
    cbn [flat_map]. rewrite served_app.
    destruct (served _ (out_port sw index frame)) as [out [[]|e]]; [|done].
    rewrite (IH (index + 1)) by lia.
    by destruct (served _ _).
  - destruct (decide (index ≠ q)); [done|].
    rewrite (IH (index + 1)) by lia.
    by destruct (served _ _).
Qed.

Lemma broadcast_served (tx : link_tx) (sw : t) (frame : bytes) (q : Z) :
  passive tx → Z.of_nat (length (ports sw)) = nports sw →
  broadcast tx sw frame q = (sw, served (outcome_of tx sw) (flood sw q frame)).
Proof.
  intros Hp Hlen. unfold broadcast, flood.
  rewrite broadcast_loop_served by (done || lia).
  by rewrite Z2Nat.id by lia.
Qed.

Lemma ConfirmChecksum_fields (f f' : Frame.t) (ok : bool) :
  Frame.ConfirmChecksum f = Ok (f', ok) → f' = Frame.set_checksum f [].
Proof.
  unfold Frame.ConfirmChecksum, Frame.CreateChecksum.
  destruct (Frame.toBytes _); [|done]. cbn [mbind result_bind rbind].
  destruct (int_to_bytes _ _); [|done]. cbn [rbind].
  by intros [= <- _].
Qed.

(** What [rx] does with a checksum-valid frame, nothing coming back. *)
Lemma rx_served (tx : link_tx) (sw : t) (q : Z) (frame : bytes)
    (f f' : Frame.t) :
  wf sw → passive tx →
  Frame.toFrame frame = Ok f → Frame.ConfirmChecksum f = Ok (f', true) →
  rx tx sw q frame
  = match switchingTable sw !! Frame.dstMacAdr f with
    | Some p =>
        (sw, served (outcome_of tx sw)
               (if decide (p = q) then [] else out_port sw p frame))
    | None =>
        let sw' := set_table sw
                     (<[Frame.sourceMacAdr f := q]> (switchingTable sw)) in
        (sw', served (outcome_of tx sw') (flood sw q frame))
    end.
Proof.
  intros [Hlen Htbl] Hp Hdec Hok. unfold rx. rewrite Hdec, Hok.
  pose proof (ConfirmChecksum_fields _ _ _ Hok) as ->.
  cbn [Frame.set_checksum Frame.dstMacAdr Frame.sourceMacAdr].
  destruct (switchingTable sw !! Frame.dstMacAdr f) as [p|] eqn:Hpt.
  - specialize (Htbl _ _ Hpt). simpl in Htbl.
    case_bool_decide as Hpq.
    + rewrite decide_False by done. by rewrite forward_served by (done || lia).
    + by rewrite decide_True by (destruct (decide (p = q)); [done|tauto]).
  - cbv zeta. by rewrite broadcast_served.
Qed.


Lemma rx_keeps_shape (tx : link_tx) (sw : t) (q : Z) (frame : bytes) :
  passive tx →
  ports (rx tx sw q frame).1 = ports sw ∧
  nports (rx tx sw q frame).1 = nports sw ∧
  (switchingTable (rx tx sw q frame).1 = switchingTable sw ∨
   ∃ h, switchingTable (rx tx sw q frame).1 = <[h := q]> (switchingTable sw)).
Proof.
  intros Hp.
  assert (∀ sw i, (forward tx sw i frame).1 = sw) as Hfw.
  { intros sw0 i. unfold forward. destruct (_ && _); [|done].
    destruct (ports sw0 !! Z.to_nat i) as [[l|]|]; try done.
    by rewrite call_tx_passive. }
  assert (∀ sw todo index, (broadcast_loop tx sw frame q todo index).1 = sw)
    as Hbl.
  { intros sw0 todo. induction todo as [|todo IH]; intros index; [done|].
    cbn [broadcast_loop]. destruct (index <? nports sw0); [|done].
    case_bool_decide.
    - specialize (Hfw sw0 index).
      destruct (forward tx sw0 index frame) as [sw1 [out [[]|e]]];
        simpl in Hfw; subst sw1; [|done].
      specialize (IH (index + 1)).
      by destruct (broadcast_loop tx sw0 frame q todo (index + 1))
        as [sw2 [rest r]].
    - specialize (IH (index + 1)).
      by destruct (broadcast_loop tx sw0 frame q todo (index + 1))
        as [sw2 [rest r]]. }
  unfold rx. destruct (Frame.toFrame frame) as [f|]; [|by auto].
  destruct (Frame.ConfirmChecksum f) as [[f' [|]]|]; try by auto.
  destruct (switchingTable sw !! Frame.dstMacAdr f') as [p|].
  - case_bool_decide; [|by auto]. rewrite Hfw. by auto.
  - unfold broadcast. rewrite Hbl. cbn [set_table ports nports switchingTable].
    split; [done|]. split; [done|]. right. by eexists.
Qed.

(** The hypothesis [wf] is an invariant: it holds after every [rx] on a
    real port. *)
Lemma rx_preserves_wf (tx : link_tx) (sw : t) (q : Z) (frame : bytes) :
  passive tx → wf sw → 0 ≤ q < nports sw → wf (rx tx sw q frame).1.
Proof.
  intros Hp [Hlen Htbl] Hq.
  destruct (rx_keeps_shape tx sw q frame Hp) as (Hports & Hnp & Ht).
  split; [by rewrite Hports, Hnp|]. rewrite Hnp.
  destruct Ht as [->|[h ->]]; [done|]. by apply map_Forall_insert_2.
Qed.

Lemma switch_ex_wf : wf switch_ex.
Proof.
  split; [reflexivity|].
  unfold switch_ex. simpl. apply map_Forall_singleton. lia.
Qed.

Lemma quiet_passive : passive quiet.
Proof. by intros s sw. Qed.



End SwitchFacts.

(** * The adapter *)

Module AdapterFacts.
Import EponaAdapter AdapterSpec.

(** ** Reasoning about methods *)

Lemma bind_ok {A B : Type} (m : M A) (k : A → M B) (st st1 : state) (a : A) :
  m st = (st1, Ok a) → (m ≫= k) st = k a st1.
Proof. intros H. unfold mbind, M_bind. by rewrite H. Qed.

Lemma bind_raise {A B : Type} (m : M A) (k : A → M B) (st st1 : state)
    (e : exn) :
  m st = (st1, Raise e) → (m ≫= k) st = (st1, Raise e).
Proof. intros H. unfold mbind, M_bind. by rewrite H. Qed.

Lemma bind_inv_ok {A B : Type} (m : M A) (k : A → M B) (st st' : state)
    (b : B) :
  (m ≫= k) st = (st', Ok b) →
  ∃ (a : A) (st1 : state), m st = (st1, Ok a) ∧ k a st1 = (st', Ok b).
Proof.
  unfold mbind, M_bind. destruct (m st) as [st1 [a|e]]; [|done].
  intros H. by exists a, st1.
Qed.

Lemma add_events_nil (st : state) : add_events [] st = st.
Proof. destruct st. unfold add_events. simpl. by rewrite app_nil_r. Qed.

Lemma add_events_app (evs1 evs2 : list event) (st : state) :
  add_events evs2 (add_events evs1 st) = add_events (evs1 ++ evs2) st.
Proof. unfold add_events. simpl. by rewrite app_assoc. Qed.

Lemma add_event_events (e : event) (st : state) :
  add_event e st = add_events [e] st.
Proof. reflexivity. Qed.

Lemma actions_app (evs1 evs2 : list event) :
  actions (evs1 ++ evs2) = actions evs1 ++ actions evs2.
Proof. apply filter_app. Qed.

(** ** C7, adapter side, and deliveries of silent frames *)

Lemma rx_bad_checksum (self : config) (d : nat) (frame : bytes)
    (f f' : Frame.t) (st : state) :
  Frame.toFrame frame = Ok f → Frame.ConfirmChecksum f = Ok (f', false) →
  rx self (S d) frame st = (st, Ok ()).
Proof.
  intros Hdec Hbad. cbn [rx]. unfold rx_body.
  unfold mbind, M_bind, lift. by rewrite Hdec, Hbad.
Qed.

Lemma rx_silent (self : config) (d : nat) (frame : bytes) (st : state) :
  resolution_for_me self frame = false →
  ∃ evs, rx self (S d) frame st = (add_events evs st, Ok ()) ∧
         actions evs = [].
Proof.
  unfold resolution_for_me. intros Hs. cbn [rx]. unfold rx_body.
  unfold mbind at 1 2, M_bind, lift.
  destruct (Frame.toFrame frame) as [f|] eqn:Hdec.
  2: { by rewrite FrameFacts.toFrame_ok in Hdec. }
  pose proof (FrameFacts.toFrame_wf _ _ Hdec) as Hwf.
  rewrite FrameFacts.ConfirmChecksum_ok in Hs |- * by done.
  destruct (bool_decide _) eqn:Hok; cbn [negb].
  - case_bool_decide as Hproto; cbn [andb] in Hs.
    + unfold arpFrameRecievedProcedure.
      unfold mbind, M_bind, lift. rewrite Hdec. rewrite Hs.
      exists []. by rewrite add_events_nil.
    + destruct (_ || _).
      * eexists [_]. split; [reflexivity|done].
      * exists []. by rewrite add_events_nil.
  - exists []. by rewrite add_events_nil.
Qed.

(** ** The retry loop when nothing answers *)

Lemma upd_upd (evs1 evs2 : list event) (ib1 ib2 : list reaction)
    (st : state) :
  upd evs2 ib2 (upd evs1 ib1 st) = upd (evs1 ++ evs2) ib2 st.
Proof. unfold upd. simpl. by rewrite app_assoc. Qed.

Lemma upd_nil (st : state) : upd [] (inbox st) st = st.
Proof. destruct st. unfold upd. simpl. by rewrite app_nil_r. Qed.

Section Silent.
Context (self : config) (d : nat).

Lemma deliver_silent (batch : list bytes) (st : state) :
  Forall (λ frame, resolution_for_me self frame = false) batch →
  ∃ evs, deliver (rx self (S d)) batch st = (upd evs (inbox st) st, Ok ())
         ∧ actions evs = [].
Proof.
  intros Hb. revert st. induction Hb as [|frame batch Hf Hb IH]; intros st.
  - exists []. by rewrite upd_nil.
  - destruct (rx_silent self d frame st Hf) as (evs1 & Hrx & Ha1).
    destruct (IH (add_events evs1 st)) as (evs2 & Hd & Ha2).
    exists (evs1 ++ evs2). split.
    + cbn [deliver]. rewrite (bind_ok _ _ _ _ _ Hrx), Hd.
      f_equal. apply upd_upd.
    + by rewrite actions_app, Ha1, Ha2.
Qed.

Lemma deliver_detached_silent (batch : list bytes) (st : state) :
  Forall (λ frame, resolution_for_me self frame = false) batch →
  ∃ evs, deliver_detached (rx self (S d)) batch st
         = (upd evs (inbox st) st, Ok ())
         ∧ actions evs = [].
Proof.
  intros Hb. revert st. induction Hb as [|frame batch Hf Hb IH]; intros st.
  - exists []. by rewrite upd_nil.
  - destruct (rx_silent self d frame st Hf) as (evs1 & Hrx & Ha1).
    destruct (IH (add_events evs1 st)) as (evs2 & Hd & Ha2).
    exists (evs1 ++ evs2). split.
    + cbn [deliver_detached]. unfold mbind at 1, M_bind at 1.
      rewrite Hrx. cbn [fst]. rewrite Hd. f_equal. apply upd_upd.
    + by rewrite actions_app, Ha1, Ha2.
Qed.

Lemma link_call_silent (st : state) :
  silent self (inbox st) →
  ∃ evs ib, link_call (rx self (S d)) st = (upd evs ib st, Ok ())
            ∧ actions evs = [] ∧ silent self ib.
Proof.
  intros Hs. unfold link_call. unfold mbind at 1, M_bind, get.
  destruct (inbox st) as [|[batch out] rest] eqn:Hib.
  - exists [], []. split; [|done]. rewrite <- Hib. by rewrite upd_nil.
  - inversion Hs as [|? ? [Hbatch Hout] Hrest]; subst.
    cbn [arrivals outcome] in *. subst out.
    destruct (deliver_silent batch (set_inbox rest st) Hbatch)
      as (evs & Hd & Ha).
    exists evs, rest. split; [|done].
    unfold mbind, M_bind, modify, lift. by rewrite Hd.
Qed.

Lemma tx_silent (frame : bytes) (st : state) :
  silent self (inbox st) →
  ∃ evs ib, tx (rx self (S d)) frame st = (upd evs ib st, Ok ())
            ∧ actions evs = (if link st is Some _ then [EvTx frame] else [])
            ∧ silent self ib.
Proof.
  intros Hs. unfold tx. unfold mbind at 1, M_bind, get.
  destruct (link st) as [l|] eqn:Hl.
  - destruct (link_call_silent (add_event (EvTx frame) st) Hs)
      as (evs & ib & Hy & Ha & Hib).
    exists (EvTx frame :: evs), ib. split; [|split; [|done]].
    + unfold mbind, M_bind, modify. rewrite Hy. f_equal.
      apply (upd_upd [EvTx frame] evs (inbox st) ib st).
    + change (EvTx frame :: evs) with ([EvTx frame] ++ evs).
      by rewrite actions_app, Ha.
  - exists [], (inbox st). by rewrite upd_nil.
Qed.

Lemma wait_silent (st : state) :
  timeout st = false → silent self (inbox st) →
  ∃ evs ib, wait (rx self (S d)) st = (upd evs ib st, Ok ())
            ∧ actions evs = [EvWait 100] ∧ silent self ib.
Proof.
  intros Ht Hs. unfold wait.
  unfold mbind at 1 2, M_bind at 1 2, modify, get.
  cbn [timeout add_event inbox]. rewrite Ht.
  destruct (inbox st) as [|[batch out] rest] eqn:Hib.
  - exists [EvWait 100], []. split; [|done].
    unfold mret, M_ret, upd, add_event. by rewrite Hib.
  - inversion Hs as [|? ? [Hbatch Hout] Hrest]; subst.
    cbn [arrivals] in *.
    destruct (deliver_detached_silent batch
                (set_inbox rest (add_event (EvWait 100) st)) Hbatch)
      as (evs & Hd & Ha).
    exists (EvWait 100 :: evs), rest. split; [|split; [|done]].
    + unfold mbind, M_bind, modify.
      change (set_inbox rest (mkState _ _ _ _ _ _))
        with (set_inbox rest (add_event (EvWait 100) st)).
      rewrite Hd. f_equal. unfold upd, set_inbox, add_event. simpl.
      by rewrite <- app_assoc.
    + change (EvWait 100 :: evs) with ([EvWait 100] ++ evs).
      by rewrite actions_app, Ha.
Qed.

Lemma output_request (target : bytes) (st : state) :
  output self (rx self (S d)) MARE_PROTONUM BROADCAST_MAC
         (request_payload self target) st
  = tx (rx self (S d)) (request_frame self target) st.
Proof.
  unfold output. unfold mbind, M_bind, lift.
  rewrite FrameFacts.init_ok by done.
  rewrite FrameFacts.toBytes_ok by (by unfold FrameSpec.wf).
  reflexivity.
Qed.

Lemma discover_loop_silent (target : bytes) (count : nat) (st : state) :
  arpMessageRecieved st = false → timeout st = false →
  silent self (inbox st) →
  ∃ evs ib,
    discover_loop self (rx self (S d)) (request_payload self target)
                  count st
    = (upd evs ib st, Raise NoRouteToHost)
    ∧ actions evs = mjoin (replicate count (attempt self target st)).
Proof.
  revert st. induction count as [|count IH]; intros st Hflag Ht Hs.
  - exists [], (inbox st). by rewrite upd_nil.
  - destruct (tx_silent (request_frame self target) st Hs)
      as (evs1 & ib1 & Htx & Ha1 & Hs1).
    destruct (wait_silent (upd evs1 ib1 st) Ht Hs1)
      as (evs2 & ib2 & Hw & Ha2 & Hs2).
    rewrite upd_upd in Hw.
    destruct (IH (upd (evs1 ++ evs2) ib2 st) Hflag Ht Hs2)
      as (evs3 & ib3 & Hl & Ha3).
    rewrite upd_upd in Hl.
    exists ((evs1 ++ evs2) ++ evs3), ib3. split.
    + cbn [discover_loop]. rewrite <- output_request in Htx.
      rewrite (bind_ok _ _ _ _ _ Htx), (bind_ok _ _ _ _ _ Hw).
      unfold mbind at 1, M_bind, get.
      cbn [upd arpMessageRecieved]. rewrite Hflag. exact Hl.
    + rewrite !actions_app, Ha1, Ha2, Ha3. cbn [replicate mjoin].
      unfold attempt. cbn [upd link]. reflexivity.
Qed.

End Silent.

(** ** The resolution cache only grows *)

Lemma grows_bind {A B : Type} (m : M A) (k : A → M B) :
  grows m → (∀ a, grows (k a)) → grows (m ≫= k).
Proof.
  intros Hm Hk st st' r. unfold mbind, M_bind.
  destruct (m st) as [st1 [a|e]] eqn:E.
  - intros H. etrans; [by eapply Hm|by eapply Hk].
  - intros [= <- <-]. by eapply Hm.
Qed.

Lemma grows_ret {A : Type} (a : A) : grows (mret a).
Proof. by intros st st' r [= <- <-]. Qed.

Lemma grows_raise {A : Type} (e : exn) : grows (raise e : M A).
Proof. by intros st st' r [= <- <-]. Qed.

Lemma grows_lift {A : Type} (x : result A) : grows (lift x).
Proof. by intros st st' r [= <- <-]. Qed.

Lemma grows_get : grows get.
Proof. by intros st st' r [= <- <-]. Qed.

Lemma grows_modify (f : state → state) :
  (∀ st, dom (arpTable st) ⊆ dom (arpTable (f st))) → grows (modify f).
Proof. intros Hf st st' r [= <- <-]. apply Hf. Qed.

Section Grows.
Context (self : config).
Context (rx_rec : bytes → M ()).
Context (output_ip_rec : Z → bytes → bytes → M ()).
Hypothesis rx_rec_grows : ∀ frame, grows (rx_rec frame).
Hypothesis output_ip_rec_grows :
  ∀ p addr dgram, grows (output_ip_rec p addr dgram).

Lemma deliver_grows (batch : list bytes) : grows (deliver rx_rec batch).
Proof.
  induction batch as [|frame batch IH]; cbn [deliver].
  - apply grows_ret.
  - apply grows_bind; [apply rx_rec_grows|]. by intros _.
Qed.

Lemma deliver_detached_grows (batch : list bytes) :
  grows (deliver_detached rx_rec batch).
Proof.
  induction batch as [|frame batch IH]; cbn [deliver_detached].
  - apply grows_ret.
  - apply grows_bind; [|by intros _].
    intros st st' r [= <- <-].
    destruct (rx_rec frame st) as [st1 r1] eqn:E. by eapply rx_rec_grows.
Qed.

Lemma link_call_grows : grows (link_call rx_rec).
Proof.
  unfold link_call. apply grows_bind; [apply grows_get|]. intros st.
  destruct (inbox st); [apply grows_ret|].
  apply grows_bind; [by apply grows_modify|]. intros _.
  apply grows_bind; [apply deliver_grows|]. intros _. apply grows_lift.
Qed.

Lemma tx_grows (frame : bytes) : grows (tx rx_rec frame).
Proof.
  unfold tx. apply grows_bind; [apply grows_get|]. intros st.
  destruct (link st); [|apply grows_ret].
  apply grows_bind; [by apply grows_modify|]. intros _. apply link_call_grows.
Qed.

Lemma output_grows (p : Z) (dst dgram : bytes) :
  grows (output self rx_rec p dst dgram).
Proof.
  unfold output. apply grows_bind; [apply grows_lift|]. intros f.
  apply grows_bind; [apply grows_lift|]. intros b. apply tx_grows.
Qed.

Lemma wait_grows : grows (wait rx_rec).
Proof.
  unfold wait. apply grows_bind; [by apply grows_modify|]. intros _.
  apply grows_bind; [apply grows_get|]. intros st.
  destruct (timeout st); [apply grows_ret|].
  destruct (inbox st); [apply grows_ret|].
  apply grows_bind; [by apply grows_modify|]. intros _.
  apply deliver_detached_grows.
Qed.

Lemma discover_loop_grows (payload : bytes) (count : nat) :
  grows (discover_loop self rx_rec payload count).
Proof.
  induction count as [|count IH]; cbn [discover_loop].
  - apply grows_raise.
  - apply grows_bind; [apply output_grows|]. intros _.
    apply grows_bind; [apply wait_grows|]. intros _.
    apply grows_bind; [apply grows_get|]. intros st.
    destruct (arpMessageRecieved st); [by apply grows_modify|done].
Qed.

Lemma arpIpDiscoverProcess_grows (addr : bytes) :
  grows (arpIpDiscoverProcess self rx_rec addr).
Proof.
  unfold arpIpDiscoverProcess.
  apply grows_bind; [by apply grows_modify|]. intros _.
  apply discover_loop_grows.
Qed.

Lemma arpFrameRecievedProcedure_grows (frame : bytes) :
  grows (arpFrameRecievedProcedure self output_ip_rec frame).
Proof.
  unfold arpFrameRecievedProcedure.
  apply grows_bind; [apply grows_lift|]. intros f.
  case_bool_decide; [|apply grows_ret].
  apply grows_bind.
  { apply grows_modify. intros st. cbn [set_arpTable arpTable].
    rewrite dom_insert. set_solver. }
  intros _. destruct (_ && _); [|apply output_ip_rec_grows].
  unfold successfulArpMessageRecieved.
  apply grows_bind; [by apply grows_modify|]. intros _.
  by apply grows_modify.
Qed.

Lemma rx_body_grows (frame : bytes) :
  grows (rx_body self output_ip_rec frame).
Proof.
  unfold rx_body. apply grows_bind; [apply grows_lift|]. intros f.
  apply grows_bind; [apply grows_lift|]. intros [f' ok].
  destruct (negb ok); [apply grows_ret|].
  case_bool_decide; [apply arpFrameRecievedProcedure_grows|].
  destruct (_ || _); [by apply grows_modify|apply grows_ret].
Qed.

Lemma output_ip_body_grows (p : Z) (addr dgram : bytes) :
  grows (output_ip_body self rx_rec output_ip_rec p addr dgram).
Proof.
  unfold output_ip_body. apply grows_bind; [apply grows_lift|]. intros a.
  apply grows_bind; [apply grows_get|]. intros st.
  destruct (negb (in_network self a)).
  - apply grows_bind; [|intros _; apply output_ip_rec_grows].
    case_bool_decide; [apply arpIpDiscoverProcess_grows|apply grows_ret].
  - destruct (arpTable st !! addr); [apply output_grows|].
    apply grows_bind; [apply arpIpDiscoverProcess_grows|].
    intros _. apply output_ip_rec_grows.
Qed.
End Grows.

Lemma output_ip_rx_grow (self : config) (d : nat) :
  (∀ p addr dgram, grows (output_ip self d p addr dgram)) ∧
  (∀ frame, grows (rx self d frame)).
Proof.
  induction d as [|d [IHo IHr]].
  - split; intros; apply grows_raise.
  - split; intros; cbn [output_ip rx].
    + by apply output_ip_body_grows.
    + by apply (rx_body_grows self (rx self d)).
Qed.

(** ** Resolution and routing *)

Lemma IPv4Address_packed (ip : Z) : ∃ a, IPv4Address (packed ip) = Ok a.
Proof.
  unfold IPv4Address, packed. rewrite length_to_bytes_be.
  rewrite bool_decide_eq_true_2 by done. by eexists.
Qed.

Lemma next_hop_gateway (self : config) :
  next_hop self (packed (gateway self)) = Ok (packed (gateway self)).
Proof.
  unfold next_hop. destruct (IPv4Address_packed (gateway self)) as [a ->].
  cbn [mbind result_bind rbind]. by destruct (in_network self a).
Qed.

(** C9, as the code has it: when [output_ip] returns normally, the cache
    holds an entry for the address that was resolved, which is [addr]
    itself for an address inside the adapter's subnet and the gateway for
    one outside of it. *)
Theorem output_ip_success_caches_next_hop
    (self : config) (d : nat) (p : Z) (addr dgram : bytes)
    (st st' : state) :
  output_ip self d p addr dgram st = (st', Ok ()) →
  ∃ target : bytes,
    next_hop self addr = Ok target ∧ is_Some (arpTable st' !! target).
Proof.
  revert p addr dgram st st'.
  induction d as [|d IH]; intros p addr dgram st st' Hrun; [done|].
  destruct (output_ip_rx_grow self d) as [Hgo Hgr].
  cbn [output_ip] in Hrun. unfold output_ip_body in Hrun.
  unfold mbind at 1 2, M_bind at 1 2, lift, get in Hrun.
  unfold next_hop.
  destruct (IPv4Address addr) as [a|e] eqn:Ha; [|done].
  cbn [mbind result_bind rbind].
  destruct (in_network self a) eqn:Hnet; cbn [negb] in Hrun.
  - exists addr. split; [done|].
    destruct (arpTable st !! addr) as [mac|] eqn:Hc.
    + apply (output_grows self _ Hgr) in Hrun.
      apply elem_of_dom. apply Hrun. apply elem_of_dom. by eexists.
    + apply bind_inv_ok in Hrun as ([] & st1 & _ & Hrec).
      apply IH in Hrec as (target & Hnh & Hin).
      unfold next_hop in Hnh. rewrite Ha in Hnh.
      cbn [mbind result_bind rbind] in Hnh.
      rewrite Hnet in Hnh. by injection Hnh as <-.
  - exists (packed (gateway self)). split; [done|].
    apply bind_inv_ok in Hrun as ([] & st1 & _ & Hrec).
    apply IH in Hrec as (target & Hnh & Hin).
    rewrite next_hop_gateway in Hnh. by injection Hnh as <-.
Qed.


(** ** Runs on a concrete network *)



Lemma output_ip_success_caches_next_hop_witness :
  ∃ target : bytes,
    next_hop hostA ipC = Ok target ∧
    is_Some
      (arpTable
         (output_ip hostA 3 0x3250 ipC [x68; x69]
                    (plugged ∅ [arrive [reply_from_C]])).1 !! target).
Proof.
  apply (output_ip_success_caches_next_hop hostA 3 0x3250 ipC [x68; x69]
           (plugged ∅ [arrive [reply_from_C]])).
  vm_compute. reflexivity.
Defined.

(** C9 as stated fails: [output_ip] to an address outside the subnet
    returns normally, and the cache has an entry for the gateway but none
    for that address. *)
Lemma output_ip_success_caches_next_hop_counterexample :
  let st := plugged {[ packed (gateway hostA) := hwGateway ]} [] in
  let '(st', r) := output_ip hostA 2 0x1e1b off_subnet [x6f; x75] st in
  r = Ok () ∧ arpTable st' !! off_subnet = None ∧
  arpTable st' !! packed (gateway hostA) = Some hwGateway.
Proof. vm_compute. done. Qed.

(** ** Frames with a bad checksum *)

(** C7: a buffer whose decoded frame fails checksum verification is
    dropped.  The adapter's [rx] returns with the adapter unchanged and
    nothing done (no delivery to the upper layer, no reply sent); the
    switch's [rx] returns with the switching table unchanged and nothing
    forwarded. *)
Theorem bad_checksum_dropped (frame : bytes) (f f' : Frame.t) :
  Frame.toFrame frame = Ok f → Frame.ConfirmChecksum f = Ok (f', false) →
  (∀ (self : config) (d : nat) (st : state),
     rx self (S d) frame st = (st, Ok ())) ∧
  (∀ (tx : EponaSwitch.link_tx) (sw : EponaSwitch.t) (port : Z),
     EponaSwitch.rx tx sw port frame = (sw, ([], Ok ()))).
Proof.
  intros Hdec Hbad. split.
  - intros self d st. by eapply rx_bad_checksum.
  - intros tx sw port. unfold EponaSwitch.rx. by rewrite Hdec, Hbad.
Qed.

Lemma bad_checksum_dropped_witness :
  (∀ (self : config) (d : nat) (st : state),
     rx self (S d) hello_corrupted st = (st, Ok ())) ∧
  (∀ (tx : EponaSwitch.link_tx) (sw : EponaSwitch.t) (port : Z),
     EponaSwitch.rx tx sw port hello_corrupted = (sw, ([], Ok ()))).
Proof.
  eapply (bad_checksum_dropped hello_corrupted).
  - reflexivity.
  - reflexivity.
Defined.

End AdapterFacts.

(** * More about the frame codec *)

Module CodecExtra.
Import Frame FrameSpec FrameFacts BitFlip ExtraSpec.

Ltac bitwise0 :=
  apply Z.bits_inj'; intros ? ?; rewrite ?Z.lxor_spec, ?Z.bits_0;
  repeat match goal with |- context [Z.testbit ?a ?n] =>
    destruct (Z.testbit a n) end; reflexivity.

Lemma to_bytes_be_zero (len : nat) : to_bytes_be len 0 = replicate len x00.
Proof.
  induction len as [|len IH]; [done|].
  cbn [to_bytes_be]. change (0 `div` 256) with 0. rewrite IH.
  change (byte_of_Z 0) with x00. by rewrite replicate_S_end.
Qed.

Lemma to_bytes_be_pad (bs : bytes) (len : nat) :
  (length bs ≤ len)%nat →
  to_bytes_be len (int_from_bytes bs)
  = replicate (len - length bs) x00 ++ bs.
Proof.
  revert len. induction bs as [|b bs IH] using rev_ind; intros len Hlen.
  - simpl. rewrite Nat.sub_0_r, app_nil_r. apply to_bytes_be_zero.
  - rewrite length_app in Hlen |- *. simpl in Hlen |- *.
    destruct len as [|len]; [lia|].
    rewrite int_from_bytes_snoc. cbn [to_bytes_be].
    pose proof (byte_to_Z_range b) as Hb.
    rewrite Z.div_add_l by lia. rewrite Z.div_small by lia.
    rewrite Z.add_0_r, IH by lia.
    replace (S len - (length bs + 1))%nat with (len - length bs)%nat by lia.
    rewrite <- app_assoc. f_equal. f_equal. f_equal.
    apply byte_to_Z_inj. rewrite byte_to_of_Z.
    rewrite Z.add_comm, Z.mod_add by lia. by rewrite Z.mod_small.
Qed.

Lemma slices_cover (bs : bytes) :
  slice 0 6 bs ++ slice 6 12 bs ++ slice 12 18 bs ++ slice 18 22 bs
  ++ drop 22 bs = bs.
Proof.
  rewrite !app_assoc, !slice_slice by lia.
  unfold slice. rewrite drop_0. apply take_drop.
Qed.

(** Decoding any buffer and encoding the frame again gives the buffer back,
    left-padded with zero bytes up to 6 bytes when it was shorter than the
    protocol-number field. *)
Theorem decode_then_encode (bs : bytes) :
  ∃ f : t,
    toFrame bs = Ok f ∧
    toBytes f = Ok (replicate (6 - length bs) x00 ++ bs).
Proof.
  eexists. split; [apply toFrame_ok|].
  rewrite toBytes_ok by (eapply toFrame_wf, toFrame_ok).
  cbn [protocol dstMacAdr sourceMacAdr checksum datagram].
  rewrite to_bytes_be_pad by apply slice_length_le.
  assert (6 - length (slice 0 6 bs) = 6 - length bs)%nat as ->.
  { unfold slice. rewrite length_take, length_drop. lia. }
  rewrite <- app_assoc. by rewrite slices_cover.
Qed.

Lemma verify_split (A C G : bytes) :
  length A = 18%nat → length C = 4%nat →
  verify (A ++ C ++ G)
  = Ok (bool_decide ([x00; x00; x00; byte_of_Z (xor_bytes (A ++ G))] = C)).
Proof.
  intros HA HC. destruct (verdict_split A C G HA HC) as (f & f' & H1 & H2).
  unfold verify. rewrite H1. cbn [mbind result_bind rbind]. by rewrite H2.
Qed.

Lemma split_22 (bs : bytes) :
  (22 ≤ length bs)%nat →
  ∃ A c0 c1 c2 c3 G,
    bs = A ++ [c0; c1; c2; c3] ++ G ∧ length A = 18%nat.
Proof.
  intros Hlen.
  exists (take 18 bs).
  destruct (drop 18 bs) as [|c0 [|c1 [|c2 [|c3 G]]]] eqn:E;
    try (apply (f_equal length) in E; rewrite length_drop in E;
         simpl in E; lia).
  exists c0, c1, c2, c3, G. split.
  - cbn [app]. rewrite <- E. by rewrite take_drop.
  - rewrite length_take. lia.
Qed.

Lemma verify_long (bs : bytes) :
  (22 ≤ length bs)%nat →
  verify bs
  = Ok (bool_decide (take 3 (drop 18 bs) = [x00; x00; x00]
                     ∧ xor_bytes bs = 0)).
Proof.
  intros Hlen.
  destruct (split_22 bs Hlen) as (A & c0 & c1 & c2 & c3 & G & -> & HA).
  rewrite verify_split by done. f_equal. apply bool_decide_ext.
  rewrite drop_app_length' by done. cbn [app take].
  rewrite !xor_bytes_app, !xor_bytes_cons.
  pose proof (xor_bytes_range A) as HrA.
  pose proof (xor_bytes_range G) as HrG.
  pose proof (lxor_byte_range _ _ HrA HrG) as Hr.
  split.
  - intros [= <- <- <- <-]. split; [done|].
    rewrite byte_to_of_Z, Z.mod_small by done.
    change (byte_to_Z x00) with 0. rewrite !Z.lxor_0_l. bitwise0.
  - intros [[= -> -> ->] Hx]. do 4 f_equal.
    change (byte_to_Z x00) with 0 in Hx. rewrite !Z.lxor_0_l in Hx.
    apply byte_to_Z_inj. rewrite byte_to_of_Z, Z.mod_small by done.
    symmetry. apply Z.lxor_eq. rewrite <- Hx. bitwise.
Qed.

Lemma verify_true_length (bs : bytes) :
  verify bs = Ok true → (22 ≤ length bs)%nat.
Proof.
  unfold verify. rewrite toFrame_ok. cbn [mbind result_bind rbind].
  rewrite ConfirmChecksum_ok by (eapply toFrame_wf, toFrame_ok).
  cbn [rbind checksum]. intros [= Hv%bool_decide_eq_true].
  apply (f_equal length) in Hv. unfold slice in Hv.
  rewrite length_take, length_drop in Hv.
  change (length (expected_checksum _)) with 4%nat in Hv. lia.
Qed.

(** A received buffer passes verification exactly when it has at least 22
    bytes, its bytes 18, 19 and 20 are zero, and the XOR of all its bytes is
    zero. *)
Theorem checksum_valid_iff (bs : bytes) :
  verify bs = Ok true ↔
  (22 ≤ length bs)%nat ∧ take 3 (drop 18 bs) = [x00; x00; x00]
  ∧ xor_bytes bs = 0.
Proof.
  split.
  - intros Hv. pose proof (verify_true_length bs Hv) as Hlen.
    split; [done|]. rewrite verify_long in Hv by done.
    by apply Ok_inj, bool_decide_eq_true in Hv.
  - intros (Hlen & Hz & Hx). rewrite verify_long by done.
    f_equal. by apply bool_decide_eq_true.
Qed.

Lemma verify_inv (bs : bytes) (ok : bool) :
  verify bs = Ok ok →
  ∃ f : t, toFrame bs = Ok f ∧ ConfirmChecksum f = Ok (set_checksum f [], ok).
Proof.
  unfold verify. rewrite toFrame_ok. cbn [mbind result_bind rbind].
  rewrite ConfirmChecksum_ok by (eapply toFrame_wf, toFrame_ok).
  cbn [rbind]. intros [= <-]. eexists. split; [done|].
  by rewrite ConfirmChecksum_ok by (eapply toFrame_wf, toFrame_ok).
Qed.

Lemma take3_drop18_insert (bs : bytes) (i : nat) (b : byte) :
  ¬ (18 ≤ i < 21)%nat →
  take 3 (drop 18 (<[i := b]> bs)) = take 3 (drop 18 bs).
Proof.
  intros Hi. apply list_eq. intros k.
  destruct (decide (k < 3)%nat) as [Hk|Hk].
  - rewrite !lookup_take_lt, !lookup_drop by done.
    apply list_lookup_insert_ne. lia.
  - by rewrite !lookup_take_ge by lia.
Qed.

(** A single flipped bit is detected in every buffer that verifies, also
    one that no adapter of this program built. *)
Lemma flip_fails_verify (bs : bytes) (pos : nat) (b : byte) (bit : Z) :
  verify bs = Ok true → bs !! pos = Some b → 0 ≤ bit < 8 →
  verify (<[pos := flipped b bit]> bs) = Ok false.
Proof.
  intros Hv Hpos Hbit.
  pose proof (verify_true_length bs Hv) as Hlen.
  rewrite verify_long in Hv by done.
  apply Ok_inj, bool_decide_eq_true in Hv as [Hz Hx].
  rewrite verify_long by (by rewrite length_insert).
  f_equal. apply bool_decide_eq_false. intros [Hz' Hx'].
  destruct (decide (18 ≤ pos < 21)%nat) as [Hin|Hout].
  - assert (take 3 (drop 18 bs) !! (pos - 18)%nat = Some b) as Hb.
    { rewrite lookup_take_lt, lookup_drop by lia.
      rewrite <- Hpos. f_equal. lia. }
    assert (take 3 (drop 18 (<[pos := flipped b bit]> bs)) !! (pos - 18)%nat
            = Some (flipped b bit)) as Hb'.
    { rewrite lookup_take_lt, lookup_drop by lia.
      replace (18 + (pos - 18))%nat with pos by lia.
      apply list_lookup_insert_eq. by eapply lookup_lt_Some. }
    rewrite Hz in Hb. rewrite Hz' in Hb'. rewrite Hb in Hb'.
    injection Hb' as Hb'. symmetry in Hb'. by apply flipped_ne in Hb'.
  - rewrite (xor_bytes_insert bs pos b) in Hx' by done.
    rewrite Hx, Z.lxor_0_l, flipped_to_Z, lxor_cancel in Hx' by done.
    pose proof (bit_range bit Hbit). lia.
Qed.

(** The checksum misses a double error: flipping the same bit number in two
    different bytes (other than the three high checksum bytes) of a buffer
    that verifies gives a different buffer that verifies again. *)
Theorem double_flip_undetected (bs : bytes) (i j : nat) (bit : Z) :
  verify bs = Ok true →
  (i < length bs)%nat → (j < length bs)%nat → i ≠ j →
  ¬ (18 ≤ i < 21)%nat → ¬ (18 ≤ j < 21)%nat → 0 ≤ bit < 8 →
  ∃ bs1 bs2 : bytes,
    flip_bit bs i bit = Ok bs1 ∧ flip_bit bs1 j bit = Ok bs2 ∧
    bs2 ≠ bs ∧ verify bs2 = Ok true.
Proof.
  intros Hv Hi Hj Hij Hni Hnj Hbit.
  pose proof (verify_true_length bs Hv) as Hlen.
  destruct (lookup_lt_is_Some_2 _ _ Hi) as [bi Hbi].
  destruct (lookup_lt_is_Some_2 _ _ Hj) as [bj Hbj].
  assert (<[i := flipped bi bit]> bs !! j = Some bj) as Hbj'
    by (by rewrite list_lookup_insert_ne).
  exists (<[i := flipped bi bit]> bs),
         (<[j := flipped bj bit]> (<[i := flipped bi bit]> bs)).
  split; [by apply flip_bit_ok|]. split; [by apply flip_bit_ok|].
  split.
  - intros Heq. apply (f_equal (λ l, l !! i)) in Heq.
    rewrite list_lookup_insert_ne, list_lookup_insert_eq, Hbi in Heq by done.
    injection Heq as Heq. by apply flipped_ne in Heq.
  - rewrite verify_long in Hv by done.
    apply Ok_inj, bool_decide_eq_true in Hv as [Hz Hx].
    rewrite verify_long by (by rewrite !length_insert).
    f_equal. apply bool_decide_eq_true. split.
    + by rewrite !take3_drop18_insert.
    + rewrite (xor_bytes_insert _ j bj), (xor_bytes_insert _ i bi) by done.
      rewrite Hx, Z.lxor_0_l, !flipped_to_Z, !lxor_cancel by done.
      apply Z.lxor_nilpotent.
Qed.

Lemma double_flip_undetected_witness :
  ∃ bs1 bs2 : bytes,
    flip_bit SwitchSpec.frame_ex 5 0 = Ok bs1 ∧ flip_bit bs1 23 0 = Ok bs2 ∧
    bs2 ≠ SwitchSpec.frame_ex ∧ verify bs2 = Ok true.
Proof.
  apply (double_flip_undetected SwitchSpec.frame_ex 5 23 0).
  - reflexivity.
  - simpl. lia.
  - simpl. lia.
  - lia.
  - lia.
  - lia.
  - lia.
Defined.

End CodecExtra.

(** * The address-resolution payload *)

Module ArpExtra.
Import ArpFrame.

Lemma slice_lookup (a b : nat) (l : bytes) (k : nat) :
  slice a b l !! k = if decide (k < b - a)%nat then l !! (a + k)%nat else None.
Proof.
  unfold slice. destruct (decide (k < b - a)%nat).
  - by rewrite lookup_take_lt, lookup_drop.
  - by rewrite lookup_take_ge by lia.
Qed.

Lemma slice_agree (a b : nat) (l1 l2 : bytes) :
  (∀ i, (i < b)%nat → l1 !! i = l2 !! i) → slice a b l1 = slice a b l2.
Proof.
  intros H. apply list_eq. intros k. rewrite !slice_lookup.
  destruct (decide (k < b - a)%nat); [|done]. apply H. lia.
Qed.

Lemma toFrame_concat (d s di si tail : bytes) :
  length d = 6%nat → length s = 6%nat →
  length di = 4%nat → length si = 4%nat →
  toFrame (d ++ s ++ di ++ si ++ tail)
  = init d s di si (bool_decide (tail ≠ [])).
Proof.
  intros Hd Hs Hdi Hsi. unfold toFrame.
  assert (slice 0 6 (d ++ s ++ di ++ si ++ tail) = d) as ->.
  { unfold slice. rewrite drop_0. simpl. by rewrite take_app_length'. }
  assert (slice 6 12 (d ++ s ++ di ++ si ++ tail) = s) as ->.
  { unfold slice. rewrite drop_app_length' by done.
    simpl. by rewrite take_app_length'. }
  assert (slice 12 16 (d ++ s ++ di ++ si ++ tail) = di) as ->.
  { unfold slice. rewrite (app_assoc d).
    rewrite drop_app_length' by (rewrite length_app; lia).
    simpl. by rewrite take_app_length'. }
  assert (slice 16 20 (d ++ s ++ di ++ si ++ tail) = si) as ->.
  { unfold slice. rewrite (app_assoc d), (app_assoc _ di).
    rewrite drop_app_length' by (rewrite !length_app; lia).
    simpl. by rewrite take_app_length'. }
  assert (drop 20 (d ++ s ++ di ++ si ++ tail) = tail) as ->.
  { rewrite (app_assoc d), (app_assoc _ di), (app_assoc _ si).
    by rewrite drop_app_length' by (rewrite !length_app; lia). }
  reflexivity.
Qed.

(** Encoding a payload whose fields have their fixed sizes and decoding it
    gives the payload back, success marker included. *)
Theorem arp_encode_decode (d s di si : bytes) (flag : bool) :
  length d = 6%nat → length s = 6%nat →
  length di = 4%nat → length si = 4%nat →
  toFrame (toBytes (init d s di si flag)) = init d s di si flag.
Proof.
  intros Hd Hs Hdi Hsi.
  assert (toBytes (init d s di si flag)
          = d ++ s ++ di ++ si ++ (if flag then success_marker else []))
    as -> by reflexivity.
  rewrite toFrame_concat by done. f_equal. by destruct flag.
Qed.

Lemma arp_encode_decode_witness :
  toFrame (toBytes (init BROADCAST_MAC BROADCAST_MAC AdapterSpec.ipC
                         AdapterSpec.nobody true))
  = init BROADCAST_MAC BROADCAST_MAC AdapterSpec.ipC AdapterSpec.nobody true.
Proof.
  apply (arp_encode_decode BROADCAST_MAC BROADCAST_MAC AdapterSpec.ipC
           AdapterSpec.nobody true); reflexivity.
Defined.

(** Decoding accepts any buffer, and any non-empty tail after byte 20 as
    the success marker: encoding what was decoded gives the first 20 bytes
    followed by the marker [b'0xff'] or by nothing, and decoding that again
    gives the same payload. *)
Theorem arp_decode_canonical (bs : bytes) :
  toBytes (toFrame bs)
  = take 20 bs ++ (if bool_decide (drop 20 bs ≠ []) then success_marker
                   else []) ∧
  toFrame (toBytes (toFrame bs)) = toFrame bs.
Proof.
  assert (toBytes (toFrame bs)
          = take 20 bs ++ (if bool_decide (drop 20 bs ≠ [])
                           then success_marker else [])) as Henc.
  { unfold toBytes, toFrame, init.
    cbn [dstMacAdr sourceMacAdr dstIpAdr sourceIpAdr isSuccess app].
    rewrite !app_assoc, !BitFlip.slice_slice by lia.
    unfold slice. by rewrite drop_0. }
  split; [exact Henc|]. rewrite Henc.
  destruct (decide (length bs ≤ 20)%nat) as [Hle|Hgt].
  - rewrite (drop_ge bs 20) by done.
    rewrite bool_decide_eq_false_2 by (intros H; by apply H).
    by rewrite app_nil_r, take_ge.
  - assert (drop 20 bs ≠ []) as Hne.
    { intros H. apply (f_equal length) in H.
      rewrite length_drop in H. simpl in H. lia. }
    rewrite bool_decide_eq_true_2 by done.
    assert (length (take 20 bs) = 20%nat) as Ht
      by (rewrite length_take; lia).
    assert (∀ i, (i < 20)%nat →
              (take 20 bs ++ success_marker) !! i = bs !! i) as Hag.
    { intros i Hi. rewrite lookup_app_l by lia. by apply lookup_take_lt. }
    unfold toFrame.
    rewrite (slice_agree 0 6 _ bs), (slice_agree 6 12 _ bs),
      (slice_agree 12 16 _ bs), (slice_agree 16 20 _ bs)
      by (intros; apply Hag; lia).
    rewrite drop_app_length' by done.
    rewrite bool_decide_eq_true_2 by done.
    by rewrite bool_decide_eq_true_2 by done.
Qed.

End ArpExtra.

(** * More about the broadcast link *)

Module LinkExtra.
Import BroadcastLink FrameSpec LinkSpec BitFlip ExtraSpec.

(** A node attached twice is attached once: one [detach] removes it, and a
    second [detach] fails (KeyError). *)
Theorem attach_twice_detach_once (l : t) (n : node) :
  attach (attach l n) n = attach l n ∧
  ∃ l1 : t,
    detach (attach (attach l n) n) n = Some l1 ∧
    nodes l1 = nodes l ∖ {[n]} ∧ corrupt l1 = corrupt l ∧
    detach l1 n = None.
Proof.
  assert (attach (attach l n) n = attach l n) as Hidem.
  { unfold attach. simpl. f_equal. apply set_eq. intros x.
    rewrite !elem_of_union. tauto. }
  split; [exact Hidem|]. rewrite Hidem.
  exists (mk (nodes l ∖ {[n]}) (corrupt l)).
  unfold detach, attach. simpl.
  rewrite decide_True by (by apply elem_of_union_l, elem_of_singleton_2).
  split.
  { f_equal. f_equal. apply set_eq. intros x.
    rewrite !elem_of_difference, elem_of_union. tauto. }
  split; [done|]. split; [done|].
  rewrite decide_False; [done|].
  rewrite elem_of_difference, elem_of_singleton. tauto.
Qed.

Lemma corrupt_frame_flip (frame : bytes) (d1 d2 : Z) :
  frame ≠ [] →
  ∃ (pos : nat) (b : byte) (bit : Z),
    frame !! pos = Some b ∧ 0 ≤ bit < 8 ∧
    corrupt_frame frame d1 d2 = Ok (<[pos := flipped b bit]> frame).
Proof.
  intros Hne. unfold corrupt_frame.
  assert (0 < length frame)%nat as Hlen by (destruct frame; [done|simpl; lia]).
  destruct (LinkFacts.randint_in_range d1 0 (Z.of_nat (length frame) - 1)
              ltac:(lia)) as (pos & -> & Hpos).
  destruct (LinkFacts.randint_in_range d2 0 7 ltac:(lia))
    as (bit & -> & Hbit).
  cbn [mbind result_bind rbind].
  destruct (lookup_lt_is_Some_2 frame (Z.to_nat pos) ltac:(lia)) as [b Hb].
  exists (Z.to_nat pos), b, bit.
  split; [done|]. split; [lia|]. apply flip_bit_ok; [done|lia].
Qed.

(** A frame that verifies, sent over a link whose corruption flag is set,
    is dropped by any adapter and by any switch that receives it: their
    state does not change, nothing is delivered upwards, nothing is sent.
    So, when the receivers are such that they return on a buffer that fails
    verification and leave the set of attached nodes alone, every other
    node is handed one and the same buffer, the call returns and the flag
    is clear. *)
Theorem corrupted_transmission_dropped
    (rx_link : receivers) (l : t) (sender : node) (bs : bytes) (d1 d2 : Z) :
  sender ∈ nodes l → corrupt l = true → verify bs = Ok true →
  never_swaps rx_link →
  (∀ n buf, verify buf = Ok false → takes rx_link n buf) →
  ∃ (l' : t) (buf' : bytes),
    tx rx_link l sender (PyBytes bs) d1 d2
    = (l', calls_to_others l sender buf', Ok ()) ∧
    corrupt l' = false ∧
    (∀ (self : EponaAdapter.config) (d : nat) (st : EponaAdapter.state),
       EponaAdapter.rx self (S d) buf' st = (st, Ok ())) ∧
    (∀ (ltx : EponaSwitch.link_tx) (sw : EponaSwitch.t) (port : Z),
       EponaSwitch.rx ltx sw port buf' = (sw, ([], Ok ()))).
Proof.
  intros Hin Hc Hv Hres Hdrop.
  pose proof (CodecExtra.verify_true_length bs Hv) as Hlen.
  assert (bs ≠ []) as Hne by (intros ->; simpl in Hlen; lia).
  destruct (corrupt_frame_flip bs d1 d2 Hne) as (pos & b & bit & Hb & Hbit & Hcf).
  pose proof (CodecExtra.flip_fails_verify bs pos b bit Hv Hb Hbit) as Hbad.
  exists (mk (nodes l) false), (<[pos := flipped b bit]> bs).
  split.
  { unfold tx. rewrite decide_True by done. cbn [as_ByteString].
    rewrite Hc, Hcf.
    destruct (LinkFacts.tx_loop_spec rx_link sender
                (<[pos := flipped b bit]> bs) (elements (nodes l)) l l
                Hres eq_refl)
      as (l1 & calls & r & Hloop & _ & Hall & _ & Hret).
    assert (r = Ok ()) as -> by (by apply Hret; intros; apply Hdrop).
    destruct (Hall eq_refl) as [Hcalls Hnodes].
    by rewrite Hloop, Hcalls, Hnodes. }
  split; [done|].
  unfold verify in Hbad.
  destruct (Frame.toFrame _) as [f|] eqn:Hdec; [|done].
  cbn [mbind result_bind rbind] in Hbad.
  destruct (Frame.ConfirmChecksum f) as [[f' ok]|] eqn:Hok; [|done].
  cbn [rbind] in Hbad. apply Ok_inj in Hbad. subst ok.
  split.
  - intros self d st. by eapply AdapterFacts.rx_bad_checksum.
  - intros ltx sw port. unfold EponaSwitch.rx. by rewrite Hdec, Hok.
Qed.

Lemma adapters_like_drop (self : EponaAdapter.config)
    (st : EponaAdapter.state) (n : node) (buf : bytes) :
  verify buf = Ok false → takes (adapters_like self st) n buf.
Proof.
  intros Hv l. apply CodecExtra.verify_inv in Hv as (f & Hdec & Hok).
  unfold adapters_like. cbn [fst snd].
  by rewrite (AdapterFacts.rx_bad_checksum self 0 buf f _ st Hdec Hok).
Qed.

Lemma corrupted_transmission_dropped_witness :
  ∃ (l' : t) (buf' : bytes),
    tx (adapters_like AdapterSpec.hostA (AdapterSpec.plugged ∅ []))
       (corrupt_next link12) 1%nat (PyBytes SwitchSpec.frame_ex) 7 3
    = (l', calls_to_others (corrupt_next link12) 1%nat buf', Ok ()) ∧
    corrupt l' = false ∧
    (∀ (self : EponaAdapter.config) (d : nat) (st : EponaAdapter.state),
       EponaAdapter.rx self (S d) buf' st = (st, Ok ())) ∧
    (∀ (ltx : EponaSwitch.link_tx) (sw : EponaSwitch.t) (port : Z),
       EponaSwitch.rx ltx sw port buf' = (sw, ([], Ok ()))).
Proof.
  apply (corrupted_transmission_dropped
           (adapters_like AdapterSpec.hostA (AdapterSpec.plugged ∅ []))
           (corrupt_next link12) 1%nat SwitchSpec.frame_ex 7 3).
  - exact LinkFacts.link12_sender.
  - reflexivity.
  - reflexivity.
  - intros n buf l. by left.
  - intros n buf. apply adapters_like_drop.
Defined.

End LinkExtra.

(** * More about the switch, and the repeater *)

Module SwitchExtra.
Import EponaSwitch SwitchSpec SwitchFacts Ports SwitchExtraSpec ExtraSpec.

Lemma out_port_sent_ok (sw : t) (q i : Z) (frame : bytes) :
  i ≠ q → 0 ≤ i < nports sw →
  Forall (sent_ok sw q frame) (out_port sw i frame).
Proof.
  intros Hq Hi. unfold out_port.
  destruct (ports sw !! Z.to_nat i) as [[l|]|] eqn:E; try constructor.
  - unfold sent_ok. simpl. by rewrite E.
  - constructor.
Qed.

Lemma flood_sent_ok (sw : t) (q : Z) (frame : bytes) :
  Forall (sent_ok sw q frame) (flood sw q frame).
Proof.
  apply Forall_forall. intros s Hs. unfold flood in Hs.
  apply list_elem_of_In, in_flat_map in Hs as (i & Hi & Hs).
  apply list_elem_of_In, list_elem_of_filter in Hi as [Hq Hi].
  apply elem_of_seqZ in Hi. apply list_elem_of_In in Hs.
  pose proof (out_port_sent_ok sw q i frame Hq ltac:(lia)) as Hall.
  rewrite Forall_forall in Hall. by apply Hall.
Qed.

Lemma verify_fields (frame : bytes) (f : Frame.t) :
  Frame.toFrame frame = Ok f → verify frame = Ok true →
  Frame.ConfirmChecksum f = Ok (Frame.set_checksum f [], true).
Proof.
  intros Hdec Hv.
  apply CodecExtra.verify_inv in Hv as (f0 & Hdec0 & Hok).
  rewrite Hdec in Hdec0. apply Ok_inj in Hdec0. by subst f0.
Qed.

Lemma served_sent_ok (outcome : sent → result ()) (sw : t) (q : Z)
    (frame : bytes) (plan : list sent) :
  Forall (sent_ok sw q frame) plan →
  Forall (sent_ok sw q frame) (served outcome plan).1.
Proof.
  intros Hall.
  destruct (served_spec outcome plan) as (calls & r & -> & [rest ->] & _).
  by apply Forall_app in Hall as [Hall _].
Qed.

Lemma served_outcome (outcome : sent → result ()) (plan : list sent) :
  (Forall (λ s, outcome s = Ok ()) (served outcome plan).1 →
   (served outcome plan).2 = Ok ()) ∧
  (∀ e, (served outcome plan).2 = Raise e →
     ∃ s, last (served outcome plan).1 = Some s ∧ outcome s = Raise e).
Proof.
  destruct (served_spec outcome plan) as (calls & r & -> & _ & _ & Hlast).
  cbn [fst snd]. split; [|done].
  intros Hall. destruct r as [[]|e]; [done|].
  destruct (Hlast e eq_refl) as (s & Hl & Hs).
  apply last_Some in Hl as [front ->].
  rewrite Forall_app, Forall_singleton in Hall. destruct Hall as [_ Hall].
  congruence.
Qed.

(** On a well-formed switch into which no frame comes back, [rx] raises
    nothing of its own, whatever the bytes: it returns when the
    transmissions it makes return, and an exception that comes out of it is
    the one of the last transmission it made.  Everything it sends leaves
    by a real port other than the ingress port, on the link plugged there,
    with the received bytes unchanged. *)
Theorem rx_never_sends_back
    (tx : link_tx) (sw : t) (q : Z) (frame : bytes) :
  wf sw → passive tx →
  ∃ (sw' : t) (calls : list sent) (r : result ()),
    rx tx sw q frame = (sw', (calls, r)) ∧
    ports sw' = ports sw ∧ nports sw' = nports sw ∧
    Forall (sent_ok sw q frame) calls ∧
    (Forall (λ s, outcome_of tx sw' s = Ok ()) calls → r = Ok ()) ∧
    (∀ e, r = Raise e →
       ∃ s, last calls = Some s ∧ outcome_of tx sw' s = Raise e).
Proof.
  intros Hwf Hp.
  destruct (verify frame) as [[|]|] eqn:Hv.
  - destruct (CodecExtra.verify_inv _ _ Hv) as (f & Hdec & Hok).
    rewrite (rx_served tx sw q frame f _ Hwf Hp Hdec Hok).
    destruct (switchingTable sw !! Frame.dstMacAdr f) as [p|] eqn:Hpt;
      cbv zeta.
    + set (plan := if decide (p = q) then [] else out_port sw p frame).
      assert (Forall (sent_ok sw q frame) plan) as Hplan.
      { unfold plan. destruct (decide (p = q)); [constructor|].
        destruct Hwf as [Hlen Htbl]. specialize (Htbl _ _ Hpt).
        by apply out_port_sent_ok. }
      destruct (served_outcome (outcome_of tx sw) plan) as [Hret Hlast].
      pose proof (served_sent_ok (outcome_of tx sw) sw q frame plan Hplan).
      destruct (served (outcome_of tx sw) plan) as [calls r].
      by exists sw, calls, r.
    + set (sw' := set_table sw _).
      destruct (served_outcome (outcome_of tx sw') (flood sw q frame))
        as [Hret Hlast].
      pose proof (served_sent_ok (outcome_of tx sw') sw q frame _
                    (flood_sent_ok sw q frame)).
      destruct (served (outcome_of tx sw') (flood sw q frame)) as [calls r].
      by exists sw', calls, r.
  - destruct (CodecExtra.verify_inv _ _ Hv) as (f & Hdec & Hok).
    exists sw, [], (Ok ()). split; [|by repeat split].
    unfold rx. by rewrite Hdec, Hok.
  - exfalso. unfold verify in Hv. rewrite FrameFacts.toFrame_ok in Hv.
    cbn [mbind result_bind rbind] in Hv.
    by rewrite FrameFacts.ConfirmChecksum_ok in Hv
      by (eapply FrameFacts.toFrame_wf, FrameFacts.toFrame_ok).
Qed.

Lemma switch_fresh_wf : wf switch_fresh.
Proof. split; [reflexivity|]. apply map_Forall_empty. Qed.

Lemma rx_never_sends_back_witness :
  ∃ (sw' : t) (calls : list sent) (r : result ()),
    rx quiet switch_fresh 1 frame_out = (sw', (calls, r)) ∧
    ports sw' = ports switch_fresh ∧ nports sw' = nports switch_fresh ∧
    Forall (sent_ok switch_fresh 1 frame_out) calls ∧
    (Forall (λ s, outcome_of quiet sw' s = Ok ()) calls → r = Ok ()) ∧
    (∀ e, r = Raise e →
       ∃ s, last calls = Some s ∧ outcome_of quiet sw' s = Raise e).
Proof.
  apply (rx_never_sends_back quiet switch_fresh 1 frame_out switch_fresh_wf
           quiet_passive).
Defined.

(** Learning, then forwarding, no frame coming back into the switch
    meanwhile: after a valid frame from source [h] to an unknown
    destination has come in on port [p], a valid frame addressed to [h]
    that comes in on another port is sent out of port [p] alone, and one
    that comes in on port [p] goes nowhere; the table stays as the first
    frame left it, whether the transmissions return or raise. *)
Theorem learn_then_forward
    (tx1 tx2 : link_tx) (sw : t) (p q : Z) (frame1 frame2 : bytes)
    (f1 f2 : Frame.t) :
  wf sw → passive tx1 → passive tx2 → 0 ≤ p < nports sw →
  Frame.toFrame frame1 = Ok f1 → verify frame1 = Ok true →
  switchingTable sw !! Frame.dstMacAdr f1 = None →
  Frame.toFrame frame2 = Ok f2 → verify frame2 = Ok true →
  Frame.dstMacAdr f2 = Frame.sourceMacAdr f1 →
  ∃ sw1 : t,
    rx tx1 sw p frame1
    = (sw1, served (outcome_of tx1 sw1) (flood sw p frame1)) ∧
    switchingTable sw1 !! Frame.sourceMacAdr f1 = Some p ∧
    rx tx2 sw1 q frame2
    = (sw1, served (outcome_of tx2 sw1)
              (if decide (p = q) then [] else out_port sw p frame2)).
Proof.
  intros Hwf Hp1 Hp2 Hp Hdec1 Hv1 Hmiss Hdec2 Hv2 Hdst.
  pose proof (verify_fields _ _ Hdec1 Hv1) as Hok1.
  pose proof (verify_fields _ _ Hdec2 Hv2) as Hok2.
  eexists. split.
  { rewrite (rx_served tx1 sw p frame1 f1 _ Hwf Hp1 Hdec1 Hok1).
    rewrite Hmiss. cbv zeta. reflexivity. }
  split; [apply lookup_insert_eq|].
  rewrite (rx_served tx2 _ q frame2 f2 (Frame.set_checksum f2 []));
    try done.
  - cbn [set_table switchingTable]. rewrite Hdst, lookup_insert_eq.
    reflexivity.
  - destruct Hwf as [Hlen Htbl]. split; [done|]. simpl.
    by apply map_Forall_insert_2.
Qed.

Lemma learn_then_forward_witness :
  ∃ (f1 f2 : Frame.t) (sw1 : t),
    Frame.toFrame frame_out = Ok f1 ∧ Frame.toFrame frame_back = Ok f2 ∧
    rx quiet switch_fresh 0 frame_out
    = (sw1, served (outcome_of quiet sw1) (flood switch_fresh 0 frame_out)) ∧
    switchingTable sw1 !! Frame.sourceMacAdr f1 = Some 0 ∧
    rx (broken_at 0 ValueError) sw1 2 frame_back
    = (sw1, served (outcome_of (broken_at 0 ValueError) sw1)
              (if decide (0 = 2) then []
               else out_port switch_fresh 0 frame_back)).
Proof.
  eexists. eexists.
  destruct (learn_then_forward quiet (broken_at 0 ValueError) switch_fresh
              0 2 frame_out frame_back
              (Frame.mk 0x1003 [x02; x02; x02; x02; x02; x02]
                 [x03; x03; x03; x03; x03; x03] [x6f; x6b]
                 [x00; x00; x00; x17])
              (Frame.mk 0x1003 [x03; x03; x03; x03; x03; x03]
                 [x02; x02; x02; x02; x02; x02] [x6f; x6b]
                 [x00; x00; x00; x17]))
    as (sw1 & H1 & H2 & H3).
  - exact switch_fresh_wf.
  - exact quiet_passive.
  - by intros s sw.
  - simpl. lia.
  - reflexivity.
  - reflexivity.
  - reflexivity.
  - reflexivity.
  - reflexivity.
  - reflexivity.
  - exists sw1. split; [reflexivity|]. split; [reflexivity|]. by repeat split.
Defined.

(** ** Plugging *)

Lemma set_ports_same (sw : t) : set_ports sw (ports sw) = sw.
Proof. by destruct sw. Qed.

Lemma valid_port_lookup (sw : t) (p : Z) :
  valid_port sw p = true →
  0 ≤ p < Z.of_nat (length (ports sw)) ∧
  is_Some (ports sw !! Z.to_nat p).
Proof.
  unfold valid_port. intros [H1 H2]%andb_true_iff.
  apply Z.leb_le in H1. apply Z.ltb_lt in H2.
  split; [lia|]. apply lookup_lt_is_Some_2. lia.
Qed.

Lemma unplug_eq (d : link → result ()) (sw : t) (p : Z) :
  valid_port sw p = true →
  unplug d sw p
  = (set_ports sw (<[Z.to_nat p := None]> (ports sw)),
     (detach_ops sw p, detach_outcome d sw p)).
Proof.
  intros Hv. unfold unplug, detach_ops, detach_outcome. rewrite Hv.
  destruct (valid_port_lookup sw p Hv) as [_ [[l|] Hl]]; rewrite Hl.
  - done.
  - by rewrite list_insert_id, set_ports_same.
Qed.

Lemma plug_eq (d a : link → result ()) (sw : t) (p : Z) (l : link) :
  valid_port sw p = true →
  plug d a sw p l
  = match detach_outcome d sw p with
    | Ok _ =>
        (set_ports sw (<[Z.to_nat p := Some l]> (ports sw)),
         (detach_ops sw p ++ [OpAttach l], a l))
    | Raise e =>
        (set_ports sw (<[Z.to_nat p := None]> (ports sw)),
         (detach_ops sw p, Raise e))
    end.
Proof.
  intros Hv. unfold plug. rewrite Hv, unplug_eq by done.
  destruct (detach_outcome d sw p) as [[]|e]; [|done].
  cbn [set_ports ports nports switchingTable].
  by rewrite list_insert_insert_eq.
Qed.

Lemma index_of_lt (l : link) (ps : list (option link)) (i : nat) :
  index_of l ps = Some i → (i < length ps)%nat ∧ ps !! i = Some (Some l).
Proof.
  revert i. induction ps as [|p ps IH]; intros i; [done|].
  cbn [index_of]. destruct (decide (p = Some l)) as [->|Hne].
  - intros [= <-]. simpl. split; [lia|done].
  - destruct (index_of l ps) as [k|]; [|done]. simpl.
    intros [= <-]. destruct (IH k eq_refl). simpl. split; [lia|done].
Qed.

Lemma index_of_first (l : link) (ps : list (option link)) (i : nat) :
  ps !! i = Some (Some l) →
  (∀ k, (k < i)%nat → ps !! k ≠ Some (Some l)) →
  index_of l ps = Some i.
Proof.
  revert i. induction ps as [|p ps IH]; intros i Hi Hfirst; [done|].
  cbn [index_of]. destruct i as [|i].
  - simpl in Hi. injection Hi as ->. by rewrite decide_True.
  - rewrite decide_False.
    + rewrite (IH i); [done|done|].
      intros k Hk. apply (Hfirst (S k)). lia.
    + intros ->. by apply (Hfirst O ltac:(lia)).
Qed.

Lemma index_of_none (l : link) (ps : list (option link)) :
  (∀ k, ps !! k ≠ Some (Some l)) → index_of l ps = None.
Proof.
  induction ps as [|p ps IH]; intros Hno; [done|].
  cbn [index_of]. rewrite decide_False.
  - rewrite IH; [done|]. intros k. apply (Hno (S k)).
  - intros ->. by apply (Hno O).
Qed.

(** [plug] on a real port frees the port first.  When the [detach] of the
    link found there returns (or no link is there), the new link is put in
    its place and attached to, the table is left alone, and [plug] ends as
    the [attach] does; frames that the new link hands over afterwards are
    treated as arriving on that port, provided the link is not also plugged
    into a port with a lower number.  When that [detach] raises (on a
    broadcast link: KeyError, the link not having the switch in its set),
    [plug] ends with its exception: the port is left empty, and the new
    link is neither stored nor attached to. *)
Theorem plug_then_rx_link
    (d a : link → result ()) (sw : t) (p : Z) (l : link) :
  valid_port sw p = true →
  (detach_outcome d sw p = Ok () →
   ∃ sw' : t,
     plug d a sw p l = (sw', (detach_ops sw p ++ [OpAttach l], a l)) ∧
     ports sw' = <[Z.to_nat p := Some l]> (ports sw) ∧
     nports sw' = nports sw ∧
     switchingTable sw' = switchingTable sw ∧
     ((∀ k, (k < Z.to_nat p)%nat → ports sw !! k ≠ Some (Some l)) →
      ∀ tx frame, rx_link tx sw' l frame = rx tx sw' p frame)) ∧
  (∀ e, detach_outcome d sw p = Raise e →
   ∃ sw' : t,
     plug d a sw p l = (sw', (detach_ops sw p, Raise e)) ∧
     ports sw' = <[Z.to_nat p := None]> (ports sw) ∧
     nports sw' = nports sw ∧
     switchingTable sw' = switchingTable sw).
Proof.
  intros Hv. split.
  - intros Hd. eexists. split; [by rewrite plug_eq, Hd by done|].
    split; [done|]. split; [done|]. split; [done|].
    intros Hfirst tx frame. unfold rx_link. cbn [set_ports ports].
    destruct (valid_port_lookup sw p Hv) as [Hp _].
    rewrite (index_of_first l _ (Z.to_nat p)).
    + by rewrite Z2Nat.id by lia.
    + apply list_lookup_insert_eq. lia.
    + intros k Hk. rewrite list_lookup_insert_ne by lia. by apply Hfirst.
  - intros e Hd. eexists. split; [by rewrite plug_eq, Hd by done|].
    by repeat split.
Qed.

(** Link 7 sits on ports 0 and 2 and has the switch, node 5, in its set.
    Unplugging port 0 takes the switch out of that set; plugging link 4
    into port 2 afterwards raises KeyError and leaves port 2 empty. *)
Lemma plug_then_rx_link_witness :
  (∃ sw' : t,
     plug (λ _, Ok ()) (λ _, Ok ()) switch_fresh 1 4%nat
     = (sw', (detach_ops switch_fresh 1 ++ [OpAttach 4%nat], Ok ())) ∧
     ports sw' = <[Z.to_nat 1 := Some 4%nat]> (ports switch_fresh) ∧
     nports sw' = nports switch_fresh ∧
     switchingTable sw' = switchingTable switch_fresh ∧
     ((∀ k, (k < Z.to_nat 1)%nat →
         ports switch_fresh !! k ≠ Some (Some 4%nat)) →
      ∀ tx frame, rx_link tx sw' 4%nat frame = rx tx sw' 1 frame)) ∧
  (let link7 := BroadcastLink.attach BroadcastLink.init 5%nat in
   let '(sw1, (ops1, r1)) :=
     unplug (detach_on (λ _, link7) 5%nat) switch_shared 0 in
   r1 = Ok () ∧ ops1 = [OpDetach 7%nat] ∧
   BroadcastLink.detach link7 5%nat = Some BroadcastLink.init ∧
   ∃ sw' : t,
     plug (detach_on (λ _, BroadcastLink.init) 5%nat) (λ _, Ok ()) sw1 2
          4%nat
     = (sw', (detach_ops sw1 2, Raise KeyError)) ∧
     ports sw' = <[Z.to_nat 2 := None]> (ports sw1) ∧
     nports sw' = nports sw1 ∧
     switchingTable sw' = switchingTable sw1).
Proof.
  split.
  - apply (plug_then_rx_link (λ _, Ok ()) (λ _, Ok ()) switch_fresh 1 4%nat);
      reflexivity.
  - cbv zeta. split; [reflexivity|]. split; [reflexivity|].
    split; [by vm_compute|].
    apply (plug_then_rx_link (detach_on (λ _, BroadcastLink.init) 5%nat)
             (λ _, Ok ())
             (unplug (detach_on
                        (λ _, BroadcastLink.attach BroadcastLink.init 5%nat)
                        5%nat) switch_shared 0).1 2 4%nat);
      reflexivity.
Defined.

(** [rx_link] finds the ingress port with [list.index]: a frame from a link
    that is on no port is refused (AssertionError) and the switch is left
    alone; a frame from a link that is on several ports is always taken as
    arriving on the lowest of them. *)
Theorem rx_link_dispatch
    (tx : link_tx) (sw : t) (l : link) (frame : bytes) :
  ((∀ k, ports sw !! k ≠ Some (Some l)) →
   rx_link tx sw l frame = (sw, ([], Raise AssertionError))) ∧
  (∀ i j : nat,
     ports sw !! i = Some (Some l) → ports sw !! j = Some (Some l) →
     (∀ k, (k < i)%nat → ports sw !! k ≠ Some (Some l)) →
     (i ≤ j)%nat ∧ rx_link tx sw l frame = rx tx sw (Z.of_nat i) frame).
Proof.
  split.
  - intros Hno. unfold rx_link. by rewrite index_of_none.
  - intros i j Hi Hj Hfirst. split.
    + destruct (decide (i ≤ j)%nat) as [|Hn]; [done|].
      exfalso. apply (Hfirst j); [lia|done].
    + unfold rx_link. by rewrite (index_of_first l _ i).
Qed.

Lemma rx_link_dispatch_witness :
  rx_link quiet switch_fresh 5%nat [x68; x69]
  = (switch_fresh, ([], Raise AssertionError)) ∧
  (0 ≤ 2)%nat ∧
  rx_link quiet switch_shared 7%nat [x68; x69]
  = rx quiet switch_shared (Z.of_nat 0) [x68; x69].
Proof.
  split.
  - apply (rx_link_dispatch quiet switch_fresh 5%nat [x68; x69]).
    intros [|[|[|k]]]; discriminate.
  - apply (proj2 (rx_link_dispatch quiet switch_shared 7%nat [x68; x69])
             0%nat 2%nat).
    + reflexivity.
    + reflexivity.
    + intros k Hk. lia.
Defined.

(** Every switch that [EponaSwitch(n)] becomes through [plug], [unplug] and
    [rx_link] keeps its [n] ports, one slot per port, and has only real
    port numbers in its table. *)
Theorem reachable_wf (n : Z) (sw : t) :
  0 ≤ n → reachable n sw → wf sw ∧ nports sw = n.
Proof.
  intros Hn Hr. unfold reachable in Hr. revert sw Hr.
  apply (rtc_ind_r (λ sw, wf sw ∧ nports sw = n)).
  - split; [by apply init_switch_wf|done].
  - intros sw1 sw2 Hr Hstep [[Hlen Htbl] Hnp].
    destruct Hstep
      as [(d & a & p & l & ->)|[(d & p & ->)|(tx & l & frame & Hp & ->)]].
    + destruct (valid_port sw1 p) eqn:Hv.
      * rewrite plug_eq by done.
        destruct (detach_outcome d sw1 p); cbn [fst].
        -- split; [|done]. split; [|done]. simpl. by rewrite length_insert.
        -- split; [|done]. split; [|done]. simpl. by rewrite length_insert.
      * unfold plug. by rewrite Hv.
    + destruct (valid_port sw1 p) eqn:Hv.
      * rewrite unplug_eq by done. cbn [fst].
        split; [|done]. split; [|done]. simpl. by rewrite length_insert.
      * unfold unplug. by rewrite Hv.
    + unfold rx_link.
      destruct (index_of l (ports sw1)) as [i|] eqn:Hi; [|done].
      apply index_of_lt in Hi as [Hi _].
      assert (wf sw1) as Hwf by done.
      pose proof (rx_preserves_wf tx sw1 (Z.of_nat i) frame Hp Hwf
                    ltac:(lia)) as Hwf'.
      split; [done|].
      destruct (rx_keeps_shape tx sw1 (Z.of_nat i) frame Hp)
        as (_ & Hnp' & _).
      by rewrite Hnp'.
Qed.

Lemma reachable_wf_witness :
  wf (rx_link quiet (mk 3 [Some 7%nat; None; None] ∅) 7%nat frame_out).1 ∧
  nports (rx_link quiet (mk 3 [Some 7%nat; None; None] ∅) 7%nat frame_out).1
  = 3.
Proof.
  apply (reachable_wf 3); [lia|].
  eapply rtc_l.
  - left. by exists (λ _, Ok ()), (λ _, Ok ()), 0, 7%nat.
  - apply rtc_once. right. right.
    exists quiet, 7%nat, frame_out. split; [exact quiet_passive|done].
Defined.

(** Unplugging a port does not forget what was learned on it: whether the
    [detach] returns or raises, a valid frame for an address learned on the
    unplugged port is sent nowhere afterwards, instead of being flooded. *)
Theorem unplugged_port_swallows
    (d : link → result ()) (sw : t) (p q : Z) (frame : bytes) (f : Frame.t) :
  wf sw → valid_port sw p = true →
  Frame.toFrame frame = Ok f → verify frame = Ok true →
  switchingTable sw !! Frame.dstMacAdr f = Some p →
  ∃ sw' : t,
    unplug d sw p = (sw', (detach_ops sw p, detach_outcome d sw p)) ∧
    switchingTable sw' = switchingTable sw ∧
    ∀ tx : link_tx, rx tx sw' q frame = (sw', ([], Ok ())).
Proof.
  intros [Hlen Htbl] Hv Hdec Hver Hp.
  eexists. split; [by apply unplug_eq|]. split; [done|]. intros tx.
  destruct (valid_port_lookup sw p Hv) as [Hr _].
  pose proof (verify_fields _ _ Hdec Hver) as Hok.
  unfold rx. rewrite Hdec, Hok.
  cbn [Frame.set_checksum Frame.dstMacAdr set_ports switchingTable].
  rewrite Hp. case_bool_decide; [|done].
  unfold forward. cbn [set_ports ports]. rewrite length_insert.
  destruct (Z.leb_spec 0 p), (Z.ltb_spec p (Z.of_nat (length (ports sw))));
    try lia.
  simpl. by rewrite list_lookup_insert_eq by lia.
Qed.

Lemma unplugged_port_swallows_witness :
  ∃ (f : Frame.t) (sw' : t),
    Frame.toFrame frame_ex = Ok f ∧
    unplug (λ _, Raise KeyError) switch_ex 2
    = (sw', (detach_ops switch_ex 2,
             detach_outcome (λ _, Raise KeyError) switch_ex 2)) ∧
    switchingTable sw' = switchingTable switch_ex ∧
    ∀ tx : link_tx, rx tx sw' 0 frame_ex = (sw', ([], Ok ())).
Proof.
  eexists.
  destruct (unplugged_port_swallows (λ _, Raise KeyError) switch_ex 2 0
              frame_ex
              (Frame.mk 0x1003 [x01; x01; x01; x01; x01; x01]
                 [x02; x02; x02; x02; x02; x02] [x68; x69]
                 [x00; x00; x00; x12]) switch_ex_wf)
    as (sw' & H1 & H2 & H3); try reflexivity.
  exists sw'. split; [reflexivity|]. by repeat split.
Defined.

(** ** The repeater *)




End SwitchExtra.

(** * More about the adapter *)

Module AdapterExtra.
Import EponaAdapter AdapterSpec AdapterFacts ExtraSpec.

(** ** Frames on the wire *)

Lemma encode_eq (p : Z) (d s g : bytes) :
  0 ≤ p < 2 ^ 48 →
  encode p d s g
  = to_bytes_be 6 p ++ d ++ s
    ++ FrameSpec.expected_checksum (Frame.mk p d s g []) ++ g.
Proof.
  intros Hp. unfold encode. rewrite FrameFacts.init_ok by done.
  cbn [mbind result_bind rbind].
  by rewrite FrameFacts.toBytes_ok by done.
Qed.

Lemma encode_decode (p : Z) (d s g : bytes) :
  0 ≤ p < 2 ^ 48 → length d = 6%nat → length s = 6%nat →
  let f := Frame.mk p d s g (FrameSpec.expected_checksum (Frame.mk p d s g []))
  in
  Frame.toFrame (encode p d s g) = Ok f ∧
  Frame.ConfirmChecksum f = Ok (Frame.set_checksum f [], true).
Proof.
  intros Hp Hd Hs f. split.
  - apply FrameFacts.toFrame_toBytes; try done.
    rewrite encode_eq by done. by apply FrameFacts.toBytes_ok.
  - rewrite FrameFacts.ConfirmChecksum_ok by done.
    f_equal. f_equal. by apply bool_decide_eq_true.
Qed.

Lemma request_frame_encode (self : config) (target : bytes) :
  request_frame self target
  = encode MARE_PROTONUM BROADCAST_MAC (hwaddr self)
           (request_payload self target).
Proof. by rewrite encode_eq. Qed.

(** ** Sending *)

Section Sending.
Context (self : config) (rx_rec : bytes → M ()).

Lemma output_eq (p : Z) (dst dgram : bytes) (st : state) :
  0 ≤ p < 2 ^ 48 →
  output self rx_rec p dst dgram st
  = tx rx_rec (encode p dst (hwaddr self) dgram) st.
Proof.
  intros Hp. unfold output, mbind, M_bind, lift.
  rewrite FrameFacts.init_ok by done.
  rewrite FrameFacts.toBytes_ok by done.
  by rewrite encode_eq.
Qed.

Lemma tx_plugged (frame : bytes) (st : state) :
  is_Some (link st) → inbox st = [] →
  tx rx_rec frame st = (add_event (EvTx frame) st, Ok ()).
Proof.
  intros [l Hl] Hib. unfold tx, mbind, M_bind, get, modify. rewrite Hl.
  unfold link_call, mbind, M_bind, get. cbn [add_event inbox].
  by rewrite Hib.
Qed.

Lemma tx_unplugged (frame : bytes) (st : state) :
  link st = None → tx rx_rec frame st = (st, Ok ()).
Proof. intros Hl. unfold tx, mbind, M_bind, get. by rewrite Hl. Qed.

(** [output] builds the frame before it looks for a link: a protocol number
    that does not fit 6 bytes raises OverflowError, plugged or not, and
    nothing is sent; with a protocol number that fits, an adapter whose
    [unplug] has returned sends nothing and does not fail. *)
Theorem output_without_link (p : Z) (dst dgram : bytes) (st : state) :
  (¬ 0 ≤ p < 2 ^ 48 →
   output self rx_rec p dst dgram st = (st, Raise OverflowError)) ∧
  (0 ≤ p < 2 ^ 48 →
   ∀ d, (AdapterLink.unplug d st).2.2 = Ok () →
        output self rx_rec p dst dgram (AdapterLink.unplug d st).1
        = ((AdapterLink.unplug d st).1, Ok ())).
Proof.
  split.
  - intros Hp. unfold output, mbind, M_bind, lift.
    unfold Frame.init, Frame.CreateChecksum, Frame.toBytes.
    cbn [Frame.set_checksum Frame.protocol].
    by rewrite int_to_bytes_raise.
  - intros Hp d Hd. rewrite output_eq by done. apply tx_unplugged.
    revert Hd. unfold AdapterLink.unplug.
    destruct (link st) as [l|] eqn:E; [|done].
    by destruct (d l).
Qed.
End Sending.

Lemma output_without_link_witness :
  output hostA (λ _, mret ()) (2 ^ 48) hwC [x68; x69] (plugged ∅ [])
  = (plugged ∅ [], Raise OverflowError) ∧
  output hostA (λ _, mret ()) 0x1e1b hwC [x68; x69]
         (AdapterLink.unplug (λ _, Ok ()) (plugged ∅ [])).1
  = ((AdapterLink.unplug (λ _, Ok ()) (plugged ∅ [])).1, Ok ()).
Proof.
  split.
  - apply (output_without_link hostA (λ _, mret ()) (2 ^ 48) hwC
             [x68; x69] (plugged ∅ [])). lia.
  - apply (output_without_link hostA (λ _, mret ()) 0x1e1b hwC
             [x68; x69] (plugged ∅ [])); [lia|reflexivity].
Defined.

(** Moving an adapter to another link: [plug] detaches from the link in
    use, if any, and, once that call has returned, stores the new link and
    attaches to it; the resolution cache is kept as it is; afterwards
    frames are accepted from the new link only, a frame handed over by any
    other link being refused with AssertionError.  When the link in use
    refuses the [detach], [plug] raises what it raised: the adapter stays
    as it was, and the new link is not attached to. *)
Theorem replug_keeps_cache
    (self : config) (depth : nat) (d a : nat → result ()) (l : nat)
    (st : state) :
  (∀ old e, link st = Some old → d old = Raise e →
     AdapterLink.plug d a l st = (st, ([Ports.OpDetach old], Raise e))) ∧
  ((∀ old, link st = Some old → d old = Ok ()) →
   ∃ st' : state,
     AdapterLink.plug d a l st
     = (st', ((if link st is Some old then [Ports.OpDetach old] else [])
              ++ [Ports.OpAttach l], a l)) ∧
     link st' = Some l ∧ arpTable st' = arpTable st ∧
     (∀ frame, AdapterLink.rx_link self depth l frame st'
               = rx self depth frame st') ∧
     (∀ l' frame, l' ≠ l →
        AdapterLink.rx_link self depth l' frame st'
        = (st', Raise AssertionError))).
Proof.
  split.
  - intros old e Hl Hd. unfold AdapterLink.plug, AdapterLink.unplug.
    by rewrite Hl, Hd.
  - intros Hd. exists (AdapterLink.set_link (Some l) st).
    split; [|split; [done|split; [done|split]]].
    + unfold AdapterLink.plug, AdapterLink.unplug.
      destruct (link st) as [old|] eqn:E; [|done].
      by rewrite (Hd old eq_refl).
    + intros frame. unfold AdapterLink.rx_link. by rewrite decide_True.
    + intros l' frame Hne. unfold AdapterLink.rx_link.
      rewrite decide_False; [done|]. simpl. congruence.
Qed.

Lemma replug_keeps_cache_witness :
  AdapterLink.plug (λ _, Raise KeyError) (λ _, Ok ()) 2 (plugged ∅ [])
  = (plugged ∅ [], ([Ports.OpDetach 0%nat], Raise KeyError)) ∧
  ∃ st' : state,
    AdapterLink.plug (λ _, Ok ()) (λ _, Ok ()) 2 (plugged ∅ [])
    = (st', ([Ports.OpDetach 0%nat; Ports.OpAttach 2%nat], Ok ())) ∧
    link st' = Some 2%nat ∧ arpTable st' = ∅.
Proof.
  split.
  - apply (replug_keeps_cache hostA 0 (λ _, Raise KeyError) (λ _, Ok ()) 2
             (plugged ∅ [])); reflexivity.
  - destruct (proj2 (replug_keeps_cache hostA 0 (λ _, Ok ()) (λ _, Ok ()) 2
                       (plugged ∅ [])) (λ _ _, eq_refl))
      as (st' & Hplug & Hl & Ht & _).
    exists st'. repeat split; [exact Hplug|exact Hl|exact Ht].
Defined.

(** ** Receiving *)

Lemma rx_encoded (self : config) (d : nat) (p : Z) (dst src g : bytes)
    (st : state) :
  0 ≤ p < 2 ^ 48 → length dst = 6%nat → length src = 6%nat →
  rx self (S d) (encode p dst src g) st
  = if bool_decide (p = MARE_PROTONUM)
    then arpFrameRecievedProcedure self (output_ip self d)
           (encode p dst src g) st
    else if bool_decide (hwaddr self = dst) || bool_decide (BROADCAST_MAC = dst)
    then (add_event (EvInput p g) st, Ok ())
    else (st, Ok ()).
Proof.
  intros Hp Hd Hs.
  destruct (encode_decode p dst src g Hp Hd Hs) as [Hdec Hok].
  cbn [rx]. unfold rx_body. unfold mbind at 1 2, M_bind at 1 2, lift.
  rewrite Hdec, Hok.
  cbn [negb Frame.set_checksum Frame.protocol Frame.dstMacAdr Frame.datagram].
  case_bool_decide; [done|]. by destruct (_ || _).
Qed.

(** What one adapter puts on a link, the others take off it: a datagram
    sent with [output] (any protocol number but the resolution one) goes to
    the link as one frame; an adapter that receives that frame passes
    [(protonum, dgram)] to its upper layer when the destination is its own
    hardware address or the broadcast address, and does nothing at all
    otherwise; so the link, its corruption flag clear and its receivers
    being adapters, hands the frame unchanged to every other node and
    returns. *)
Theorem unicast_delivery
    (A : config) (rx_rec : bytes → M ()) (p : Z) (dst dgram : bytes)
    (stA : state) (rx_link : BroadcastLink.receivers) (l : BroadcastLink.t)
    (sender : BroadcastLink.node) (d1 d2 : Z) :
  0 ≤ p < 2 ^ 48 → p ≠ MARE_PROTONUM →
  length dst = 6%nat → length (hwaddr A) = 6%nat →
  is_Some (link stA) → inbox stA = [] →
  sender ∈ BroadcastLink.nodes l → BroadcastLink.corrupt l = false →
  adapters rx_link →
  ∃ bs : bytes,
    output A rx_rec p dst dgram stA = (add_event (EvTx bs) stA, Ok ()) ∧
    BroadcastLink.tx rx_link l sender (PyBytes bs) d1 d2
    = (l, LinkSpec.calls_to_others l sender bs, Ok ()) ∧
    ∀ (B : config) (d : nat) (stB : state),
      rx B (S d) bs stB
      = (if decide (dst = hwaddr B ∨ dst = BROADCAST_MAC)
         then add_event (EvInput p dgram) stB else stB, Ok ()).
Proof.
  intros Hp Hne Hd Hhw Hl Hib Hin Hc Hadapters.
  assert (∀ (B : config) (d : nat) (stB : state),
            rx B (S d) (encode p dst (hwaddr A) dgram) stB
            = (if decide (dst = hwaddr B ∨ dst = BROADCAST_MAC)
               then add_event (EvInput p dgram) stB else stB, Ok ()))
    as Hrx.
  { intros B d stB. rewrite rx_encoded by done.
    rewrite bool_decide_eq_false_2 by done.
    destruct (decide (dst = hwaddr B ∨ dst = BROADCAST_MAC)) as [[->| ->]|Hn].
    + by rewrite bool_decide_eq_true_2.
    + rewrite (bool_decide_eq_true_2 (BROADCAST_MAC = _)) by done.
      by rewrite orb_true_r.
    + rewrite !bool_decide_eq_false_2; [done| |]; intros <-; tauto. }
  exists (encode p dst (hwaddr A) dgram). split; [|split; [|done]].
  - rewrite output_eq by done. by apply tx_plugged.
  - unfold BroadcastLink.tx. rewrite decide_True by done.
    cbn [as_ByteString]. rewrite Hc.
    destruct (LinkFacts.tx_loop_spec rx_link sender
                (encode p dst (hwaddr A) dgram)
                (elements (BroadcastLink.nodes l)) l l)
      as (l1 & calls & r & Hloop & _ & Hall & _ & Hret); [|done|].
    { intros n buf l0. left.
      by destruct (Hadapters n buf l0) as (B & d & stB & ->). }
    assert (r = Ok ()) as ->.
    { apply Hret. intros n _ _ l0.
      destruct (Hadapters n (encode p dst (hwaddr A) dgram) l0)
        as (B & d & stB & ->).
      by rewrite Hrx. }
    destruct (Hall eq_refl) as [Hcalls Hnodes].
    rewrite Hloop, Hcalls, Hnodes. destruct l as [ns c].
    simpl in Hc. by subst c.
Qed.

Lemma adapters_like_adapters (self : config) (st : state) :
  adapters (adapters_like self st).
Proof. intros n buf l. by exists self, 0%nat, st. Qed.

Lemma unicast_delivery_witness :
  ∃ bs : bytes,
    output hostA (rx hostA 1) 0xbe42 hwC [x68; x69] (plugged ∅ [])
    = (add_event (EvTx bs) (plugged ∅ []), Ok ()) ∧
    BroadcastLink.tx (adapters_like hostC (plugged ∅ [])) LinkSpec.link12
                     1%nat (PyBytes bs) 0 0
    = (LinkSpec.link12, LinkSpec.calls_to_others LinkSpec.link12 1%nat bs,
       Ok ()) ∧
    ∀ (B : config) (d : nat) (stB : state),
      rx B (S d) bs stB
      = (if decide (hwC = hwaddr B ∨ hwC = BROADCAST_MAC)
         then add_event (EvInput 0xbe42 [x68; x69]) stB else stB, Ok ()).
Proof.
  apply (unicast_delivery hostA (rx hostA 1) 0xbe42 hwC [x68; x69]
           (plugged ∅ []) (adapters_like hostC (plugged ∅ []))
           LinkSpec.link12 1%nat 0 0).
  - lia.
  - discriminate.
  - reflexivity.
  - reflexivity.
  - by eexists.
  - reflexivity.
  - exact LinkFacts.link12_sender.
  - reflexivity.
  - apply adapters_like_adapters.
Defined.

(** ** Address resolution *)

Lemma IPv4Address_packed_range (ip : Z) :
  0 ≤ ip < 2 ^ 32 → IPv4Address (packed ip) = Ok ip.
Proof.
  intros Hip. unfold IPv4Address, packed. rewrite length_to_bytes_be.
  rewrite bool_decide_eq_true_2 by done.
  by rewrite int_from_to_be.
Qed.

Lemma length_packed (ip : Z) : length (packed ip) = 4%nat.
Proof. apply length_to_bytes_be. Qed.

Lemma reply_payload_decode (other : config) (mac ip : bytes) :
  length mac = 6%nat → length (hwaddr other) = 6%nat → length ip = 4%nat →
  ArpFrame.toFrame (reply_payload other mac ip)
  = ArpFrame.init mac (hwaddr other) ip (packed (iface_ip other)) true.
Proof.
  intros Hm Ho Hi. unfold reply_payload.
  assert (ArpFrame.toBytes
            (ArpFrame.init mac (hwaddr other) ip (packed (iface_ip other))
                           true)
          = mac ++ hwaddr other ++ ip ++ packed (iface_ip other)
            ++ ArpFrame.success_marker) as -> by reflexivity.
  rewrite ArpExtra.toFrame_concat by (done || apply length_packed).
  by rewrite bool_decide_eq_true_2.
Qed.

Lemma request_payload_decode (other : config) (target : bytes) :
  length (hwaddr other) = 6%nat → length target = 4%nat →
  ArpFrame.toFrame (request_payload other target)
  = ArpFrame.init (hwaddr other) (hwaddr other) target
                  (packed (iface_ip other)) false.
Proof.
  intros Ho Ht. unfold request_payload.
  assert (ArpFrame.toBytes
            (ArpFrame.init (hwaddr other) (hwaddr other) target
                           (packed (iface_ip other)) false)
          = hwaddr other ++ hwaddr other ++ target
            ++ packed (iface_ip other) ++ []) as -> by reflexivity.
  rewrite ArpExtra.toFrame_concat by (done || apply length_packed).
  by rewrite bool_decide_eq_false_2 by (intros H; by apply H).
Qed.

(** The handler on a checksum-valid resolution frame, the frame decoded. *)
Lemma arp_handler_encoded (self : config) (orec : Z → bytes → bytes → M ())
    (dst src payload : bytes) (st : state) :
  length dst = 6%nat → length src = 6%nat →
  arpFrameRecievedProcedure self orec
    (encode MARE_PROTONUM dst src payload) st
  = (let completeFrame := ArpFrame.toFrame payload in
     if bool_decide (ArpFrame.dstIpAdr completeFrame = packed (iface_ip self))
     then
       modify (λ st, set_arpTable
         (<[ArpFrame.sourceIpAdr completeFrame :=
              ArpFrame.sourceMacAdr completeFrame]> (arpTable st)) st) ;;
       if bool_decide (ArpFrame.isSuccess completeFrame
                       = ArpFrame.success_marker)
          && bool_decide (ArpFrame.dstMacAdr completeFrame = hwaddr self)
       then successfulArpMessageRecieved
       else
         orec MARE_PROTONUM (ArpFrame.sourceIpAdr completeFrame)
           (ArpFrame.toBytes
              (ArpFrame.init (ArpFrame.sourceMacAdr completeFrame)
                 (hwaddr self) (ArpFrame.sourceIpAdr completeFrame)
                 (packed (iface_ip self)) true))
     else mret ()) st.
Proof.
  intros Hd Hs.
  destruct (encode_decode MARE_PROTONUM dst src payload) as [Hdec _];
    try done.
  unfold arpFrameRecievedProcedure. unfold mbind at 1, M_bind at 1, lift.
  by rewrite Hdec.
Qed.

(** A success reply addressed to this adapter is learned and signalled,
    and never answered: the cache gets the responder's entry, the success
    flag and the event are set, and nothing is sent or delivered upwards. *)
Theorem reply_is_learned_and_signalled
    (self other : config) (d : nat) (st : state) :
  length (hwaddr self) = 6%nat → length (hwaddr other) = 6%nat →
  rx self (S d)
     (reply_frame other (hwaddr self) (packed (iface_ip self))) st
  = (set_timeout true
       (set_arpMessageRecieved true
          (set_arpTable
             (<[packed (iface_ip other) := hwaddr other]> (arpTable st))
             st)),
     Ok ()).
Proof.
  intros Hs Ho. unfold reply_frame.
  rewrite rx_encoded by done. rewrite bool_decide_eq_true_2 by done.
  rewrite arp_handler_encoded by done.
  rewrite reply_payload_decode by (done || apply length_packed).
  cbv zeta.
  cbn [ArpFrame.init ArpFrame.dstIpAdr ArpFrame.sourceIpAdr
       ArpFrame.sourceMacAdr ArpFrame.dstMacAdr ArpFrame.isSuccess].
  rewrite !bool_decide_eq_true_2 by done.
  reflexivity.
Qed.

Lemma reply_is_learned_and_signalled_witness :
  rx hostA 1 (reply_frame hostC (hwaddr hostA) (packed (iface_ip hostA)))
     (plugged ∅ [])
  = (set_timeout true
       (set_arpMessageRecieved true
          (set_arpTable
             (<[packed (iface_ip hostC) := hwaddr hostC]>
                (arpTable (plugged ∅ [])))
             (plugged ∅ []))),
     Ok ()).
Proof.
  apply (reply_is_learned_and_signalled hostA hostC 0 (plugged ∅ []));
    reflexivity.
Defined.

Lemma output_ip_cached (self : config) (d : nat) (p : Z) (addr dgram : bytes)
    (a : Z) (mac : bytes) (st : state) :
  IPv4Address addr = Ok a → in_network self a = true →
  arpTable st !! addr = Some mac →
  output_ip self (S d) p addr dgram st
  = output self (rx self d) p mac dgram st.
Proof.
  intros Ha Hnet Hc. cbn [output_ip]. unfold output_ip_body.
  unfold mbind at 1 2, M_bind at 1 2, lift, get.
  rewrite Ha, Hnet. cbn [negb]. by rewrite Hc.
Qed.

(** With the next hop in the cache, [output_ip] resolves nothing: it sends
    the datagram in one frame to the cached hardware address, which is the
    gateway's for a destination outside the subnet. *)
Theorem cached_next_hop_is_used
    (self : config) (d : nat) (p : Z) (addr dgram target mac : bytes)
    (st : state) :
  next_hop self addr = Ok target → on_subnet self target →
  arpTable st !! target = Some mac →
  0 ≤ p < 2 ^ 48 → is_Some (link st) → inbox st = [] →
  output_ip self (S (S d)) p addr dgram st
  = (add_event (EvTx (encode p mac (hwaddr self) dgram)) st, Ok ()).
Proof.
  intros Hnh (t & Ht & Htnet) Hc Hp Hl Hib.
  unfold next_hop in Hnh.
  destruct (IPv4Address addr) as [a|] eqn:Ha; [|done].
  cbn [mbind result_bind rbind] in Hnh. apply Ok_inj in Hnh.
  destruct (in_network self a) eqn:Hnet; subst target.
  - rewrite (output_ip_cached self (S d) p addr dgram a mac) by done.
    rewrite output_eq by done. by apply tx_plugged.
  - change (output_ip self (S (S d))) with
      (output_ip_body self (rx self (S d)) (output_ip self (S d))).
    unfold output_ip_body.
    unfold mbind at 1 2, M_bind at 1 2, lift, get.
    rewrite Ha, Hnet. cbn [negb].
    rewrite bool_decide_eq_false_2 by (by rewrite Hc).
    unfold mbind, M_bind, mret, M_ret.
    rewrite (output_ip_cached self d p _ dgram t mac) by done.
    rewrite output_eq by done. by apply tx_plugged.
Qed.

Lemma cached_next_hop_is_used_witness :
  output_ip hostA 2 0x1e1b off_subnet [x6f; x75]
            (plugged {[ packed (gateway hostA) := hwGateway ]} [])
  = (add_event (EvTx (encode 0x1e1b hwGateway (hwaddr hostA) [x6f; x75]))
               (plugged {[ packed (gateway hostA) := hwGateway ]} []),
     Ok ()).
Proof.
  apply (cached_next_hop_is_used hostA 0 0x1e1b off_subnet [x6f; x75]
           (packed (gateway hostA)) hwGateway).
  - reflexivity.
  - eexists. split; reflexivity.
  - apply lookup_singleton_eq.
  - lia.
  - by eexists.
  - reflexivity.
Defined.

(** A request for this adapter's address, from a host of its subnet, is
    answered whatever its link-layer destination: the adapter learns the
    asker's address pair and sends one unicast reply, with the success
    marker, to the asker's hardware address. *)
Theorem request_is_answered
    (self other : config) (d : nat) (st : state) :
  length (hwaddr other) = 6%nat →
  0 ≤ iface_ip other < 2 ^ 32 → in_network self (iface_ip other) = true →
  is_Some (link st) → inbox st = [] →
  rx self (S (S d)) (request_frame other (packed (iface_ip self))) st
  = (add_event
       (EvTx (reply_frame self (hwaddr other) (packed (iface_ip other))))
       (set_arpTable
          (<[packed (iface_ip other) := hwaddr other]> (arpTable st)) st),
     Ok ()).
Proof.
  intros Ho Hip Hnet Hl Hib. rewrite request_frame_encode.
  rewrite rx_encoded by done. rewrite bool_decide_eq_true_2 by done.
  rewrite arp_handler_encoded by done.
  rewrite request_payload_decode by (done || apply length_packed).
  cbv zeta.
  cbn [ArpFrame.init ArpFrame.dstIpAdr ArpFrame.sourceIpAdr
       ArpFrame.sourceMacAdr ArpFrame.dstMacAdr ArpFrame.isSuccess].
  rewrite bool_decide_eq_true_2 by done.
  rewrite (bool_decide_eq_false_2 ([] = ArpFrame.success_marker)) by done.
  cbn [andb]. unfold mbind, M_bind, modify.
  rewrite (output_ip_cached self d MARE_PROTONUM _ _ (iface_ip other)
             (hwaddr other)).
  - rewrite output_eq by done. by apply tx_plugged.
  - by apply IPv4Address_packed_range.
  - done.
  - apply lookup_insert_eq.
Qed.

Lemma request_is_answered_witness :
  rx hostA 2 (request_frame hostC (packed (iface_ip hostA))) (plugged ∅ [])
  = (add_event
       (EvTx (reply_frame hostA (hwaddr hostC) (packed (iface_ip hostC))))
       (set_arpTable
          (<[packed (iface_ip hostC) := hwaddr hostC]>
             (arpTable (plugged ∅ []))) (plugged ∅ [])),
     Ok ()).
Proof.
  apply (request_is_answered hostA hostC 0 (plugged ∅ [])).
  - reflexivity.
  - simpl. lia.
  - reflexivity.
  - by eexists.
  - reflexivity.
Defined.

Lemma request_payload_short_decode (dmac smac dip sip : bytes) :
  length dmac = 6%nat → length smac = 6%nat → length dip = 4%nat →
  (length sip < 4)%nat →
  ArpFrame.toFrame (dmac ++ smac ++ dip ++ sip)
  = ArpFrame.init dmac smac dip sip false.
Proof.
  intros Hd Hs Hdi Hsi. unfold ArpFrame.toFrame.
  assert (slice 0 6 (dmac ++ smac ++ dip ++ sip) = dmac) as ->.
  { unfold slice. rewrite drop_0. simpl. by rewrite take_app_length'. }
  assert (slice 6 12 (dmac ++ smac ++ dip ++ sip) = smac) as ->.
  { unfold slice. rewrite drop_app_length' by done.
    simpl. by rewrite take_app_length'. }
  assert (slice 12 16 (dmac ++ smac ++ dip ++ sip) = dip) as ->.
  { unfold slice. rewrite (app_assoc dmac).
    rewrite drop_app_length' by (rewrite length_app; lia).
    simpl. by rewrite take_app_length'. }
  assert (slice 16 20 (dmac ++ smac ++ dip ++ sip) = sip) as ->.
  { unfold slice. rewrite (app_assoc dmac), (app_assoc _ dip).
    rewrite drop_app_length' by (rewrite !length_app; lia).
    apply take_ge. lia. }
  assert (drop 20 (dmac ++ smac ++ dip ++ sip) = []) as ->.
  { apply drop_ge. rewrite !length_app. lia. }
  by rewrite bool_decide_eq_false_2 by (intros H; by apply H).
Qed.

(** [rx] can raise.  A checksum-valid resolution frame for this adapter's
    address whose payload stops inside the source-address field is not
    dropped: the adapter puts the truncated address into its cache and then
    fails with AddressValueError on the way to the reply, sending nothing. *)
Theorem truncated_request_raises
    (self : config) (d : nat) (dst src dmac smac sip : bytes) (st : state) :
  length dst = 6%nat → length src = 6%nat →
  length dmac = 6%nat → length smac = 6%nat → (length sip < 4)%nat →
  rx self (S (S d))
     (encode MARE_PROTONUM dst src
        (dmac ++ smac ++ packed (iface_ip self) ++ sip)) st
  = (set_arpTable (<[sip := smac]> (arpTable st)) st,
     Raise AddressValueError).
Proof.
  intros Hdst Hsrc Hdm Hsm Hsip.
  rewrite rx_encoded by done. rewrite bool_decide_eq_true_2 by done.
  rewrite arp_handler_encoded by done.
  rewrite request_payload_short_decode by (done || apply length_packed).
  cbv zeta.
  cbn [ArpFrame.init ArpFrame.dstIpAdr ArpFrame.sourceIpAdr
       ArpFrame.sourceMacAdr ArpFrame.dstMacAdr ArpFrame.isSuccess].
  rewrite bool_decide_eq_true_2 by done.
  rewrite (bool_decide_eq_false_2 ([] = ArpFrame.success_marker)) by done.
  cbn [andb]. unfold mbind, M_bind, modify.
  cbn [output_ip]. unfold output_ip_body.
  unfold mbind, M_bind, lift, IPv4Address.
  rewrite bool_decide_eq_false_2 by lia. reflexivity.
Qed.

Lemma truncated_request_raises_witness :
  rx hostA 2
     (encode MARE_PROTONUM BROADCAST_MAC hwC
        (hwC ++ hwC ++ packed (iface_ip hostA) ++ [x0a; x17])) (plugged ∅ [])
  = (set_arpTable (<[ [x0a; x17] := hwC ]> (arpTable (plugged ∅ [])))
                  (plugged ∅ []),
     Raise AddressValueError).
Proof.
  apply (truncated_request_raises hostA 0 BROADCAST_MAC hwC hwC hwC
           [x0a; x17] (plugged ∅ [])); try reflexivity.
  simpl. lia.
Defined.

(** A gateway that lies outside the adapter's own subnet, once in the
    cache, makes every [output_ip] to an outside address recurse until the
    call stack is used up: it ends in RecursionError at every depth, and
    nothing is sent. *)
Theorem gateway_outside_subnet_recurses
    (self : config) (depth : nat) (p : Z) (addr dgram mac : bytes) (a : Z)
    (st : state) :
  IPv4Address addr = Ok a → in_network self a = false →
  0 ≤ gateway self < 2 ^ 32 → in_network self (gateway self) = false →
  arpTable st !! packed (gateway self) = Some mac →
  output_ip self depth p addr dgram st = (st, Raise RecursionError).
Proof.
  intros Ha Hnet Hgw Hgwnet Hc. revert addr a Ha Hnet.
  induction depth as [|depth IH]; intros addr a Ha Hnet; [done|].
  cbn [output_ip]. unfold output_ip_body.
  unfold mbind at 1 2, M_bind at 1 2, lift, get.
  rewrite Ha, Hnet. cbn [negb].
  rewrite bool_decide_eq_false_2 by (by rewrite Hc).
  unfold mbind, M_bind, mret, M_ret.
  by apply (IH _ (gateway self)); [apply IPv4Address_packed_range|].
Qed.

Lemma gateway_outside_subnet_recurses_witness :
  output_ip hostLost 1000 0x1e1b off_subnet [x6f; x75]
            (plugged {[ packed (gateway hostLost) := hwGateway ]} [])
  = (plugged {[ packed (gateway hostLost) := hwGateway ]} [],
     Raise RecursionError).
Proof.
  apply (gateway_outside_subnet_recurses hostLost 1000 0x1e1b off_subnet
           [x6f; x75] hwGateway 0x0a1731e0).
  - reflexivity.
  - reflexivity.
  - simpl. lia.
  - reflexivity.
  - apply lookup_singleton_eq.
Defined.

(** ** A resolution that is answered *)

Lemma rx_marked (self : config) (d : nat) (dst src smac sip tail : bytes)
    (st : state) :
  length dst = 6%nat → length src = 6%nat →
  length (hwaddr self) = 6%nat → length smac = 6%nat →
  length sip = 4%nat → tail ≠ [] →
  rx self (S d)
     (encode MARE_PROTONUM dst src
        (hwaddr self ++ smac ++ packed (iface_ip self) ++ sip ++ tail)) st
  = (set_timeout true
       (set_arpMessageRecieved true
          (set_arpTable (<[sip := smac]> (arpTable st)) st)),
     Ok ()).
Proof.
  intros Hdst Hsrc Hhw Hsm Hsip Htail.
  rewrite rx_encoded by done. rewrite bool_decide_eq_true_2 by done.
  rewrite arp_handler_encoded by done.
  rewrite ArpExtra.toFrame_concat by (done || apply length_packed).
  rewrite (bool_decide_eq_true_2 (tail ≠ [])) by done.
  cbv zeta.
  cbn [ArpFrame.init ArpFrame.dstIpAdr ArpFrame.sourceIpAdr
       ArpFrame.sourceMacAdr ArpFrame.dstMacAdr ArpFrame.isSuccess].
  rewrite !bool_decide_eq_true_2 by done.
  reflexivity.
Qed.

Lemma reply_frame_eq (other : config) (mac ip : bytes) :
  reply_frame other mac ip
  = encode MARE_PROTONUM mac (hwaddr other)
      (mac ++ hwaddr other ++ ip ++ packed (iface_ip other)
       ++ ArpFrame.success_marker).
Proof. reflexivity. Qed.

Lemma tx_yields (rx_rec : bytes → M ()) (frame : bytes) (st : state) :
  is_Some (link st) →
  tx rx_rec frame st = link_call rx_rec (add_event (EvTx frame) st).
Proof.
  intros [l Hl]. unfold tx, mbind, M_bind, get, modify. by rewrite Hl.
Qed.

Lemma yield_one (rx_rec : bytes → M ()) (frame : bytes)
    (rest : list reaction) (st st' : state) :
  inbox st = arrive [frame] :: rest →
  rx_rec frame (set_inbox rest st) = (st', Ok ()) →
  link_call rx_rec st = (st', Ok ()).
Proof.
  intros Hib Hrx. unfold link_call, mbind, M_bind, get, modify. rewrite Hib.
  cbn [deliver arrive arrivals outcome]. unfold mbind, M_bind.
  by rewrite Hrx.
Qed.

Lemma wait_set (rx_rec : bytes → M ()) (st : state) :
  timeout st = true → wait rx_rec st = (add_event (EvWait 100) st, Ok ()).
Proof.
  intros Ht. unfold wait, mbind, M_bind, modify, get.
  cbn [add_event timeout]. by rewrite Ht.
Qed.

Lemma discover_answered (self other : config) (d : nat) (target : bytes)
    (st : state) :
  length (hwaddr self) = 6%nat → length (hwaddr other) = 6%nat →
  is_Some (link st) →
  inbox st
  = [arrive [reply_frame other (hwaddr self) (packed (iface_ip self))]] →
  arpIpDiscoverProcess self (rx self (S d)) target st
  = (mkState (link st)
       (<[packed (iface_ip other) := hwaddr other]> (arpTable st))
       false true []
       ((trace st ++ [EvTx (request_frame self target)]) ++ [EvWait 100]),
     Ok ()).
Proof.
  intros Hs Ho Hl Hib.
  unfold arpIpDiscoverProcess. unfold mbind at 1, M_bind at 1, modify.
  cbn [discover_loop].
  change (ArpFrame.toBytes _) with (request_payload self target).
  set (st0 := set_timeout false st).
  set (st1 := add_event (EvTx (request_frame self target)) st0).
  set (st2 := set_timeout true
                (set_arpMessageRecieved true
                   (set_arpTable
                      (<[packed (iface_ip other) := hwaddr other]>
                         (arpTable st1)) (set_inbox [] st1)))).
  assert (output self (rx self (S d)) MARE_PROTONUM BROADCAST_MAC
            (request_payload self target) st0 = (st2, Ok ())) as Hout.
  { rewrite output_eq by done. rewrite <- request_frame_encode.
    rewrite tx_yields by done. fold st1.
    apply (yield_one _
             (reply_frame other (hwaddr self) (packed (iface_ip self))) []);
      [exact Hib|].
    rewrite reply_frame_eq.
    by rewrite rx_marked by (done || apply length_packed). }
  rewrite (bind_ok _ _ _ _ _ Hout).
  rewrite (bind_ok _ _ _ _ _ (wait_set _ st2 eq_refl)).
  reflexivity.
Qed.

(** A resolution that is answered.  The next hop is not in the cache, a
    link is plugged, and the one thing that comes back, while the request
    is on the link, is the reply of the host that owns the address.  Then
    [output_ip] returns normally after a single attempt: it has sent the
    broadcast request, waited once, learned the responder's hardware
    address, cleared the success flag again and sent the datagram in one
    frame to that hardware address. *)
Theorem resolution_answered
    (self other : config) (d : nat) (p : Z) (addr dgram : bytes)
    (st : state) :
  length (hwaddr self) = 6%nat → length (hwaddr other) = 6%nat →
  0 ≤ iface_ip other < 2 ^ 32 → in_network self (iface_ip other) = true →
  next_hop self addr = Ok (packed (iface_ip other)) →
  arpTable st !! packed (iface_ip other) = None →
  0 ≤ p < 2 ^ 48 → is_Some (link st) →
  inbox st
  = [arrive [reply_frame other (hwaddr self) (packed (iface_ip self))]] →
  output_ip self (S (S d)) p addr dgram st
  = (mkState (link st)
       (<[packed (iface_ip other) := hwaddr other]> (arpTable st))
       false true []
       (trace st ++
        [EvTx (request_frame self (packed (iface_ip other)));
         EvWait 100;
         EvTx (encode p (hwaddr other) (hwaddr self) dgram)]),
     Ok ()).
Proof.
  intros Hs Ho Hip Hnet Hnh Hmiss Hp Hl Hib.
  set (target := packed (iface_ip other)) in *.
  pose proof (discover_answered self other d target st Hs Ho Hl Hib) as Hdisc.
  assert (IPv4Address target = Ok (iface_ip other)) as Ht
    by (by apply IPv4Address_packed_range).
  assert (∀ st1,
    st1 = mkState (link st) (<[target := hwaddr other]> (arpTable st))
            false true []
            ((trace st ++ [EvTx (request_frame self target)])
             ++ [EvWait 100]) →
    output_ip self (S d) p target dgram st1
    = (mkState (link st) (<[target := hwaddr other]> (arpTable st))
         false true []
         (trace st ++
          [EvTx (request_frame self target); EvWait 100;
           EvTx (encode p (hwaddr other) (hwaddr self) dgram)]),
       Ok ())) as Hsend.
  { intros st1 ->.
    rewrite (output_ip_cached self d p target dgram (iface_ip other)
               (hwaddr other)); [|done|done|apply lookup_insert_eq].
    rewrite output_eq by done. rewrite tx_plugged by done.
    unfold add_event. cbn [link arpTable arpMessageRecieved timeout inbox
                           trace].
    by rewrite <- !app_assoc. }
  change (output_ip self (S (S d))) with
    (output_ip_body self (rx self (S d)) (output_ip self (S d))).
  unfold output_ip_body. unfold mbind at 1 2, M_bind at 1 2, lift, get.
  unfold next_hop in Hnh.
  destruct (IPv4Address addr) as [a|] eqn:Ha; [|done].
  cbn [mbind result_bind rbind] in Hnh. apply Ok_inj in Hnh.
  destruct (in_network self a) eqn:Hneta; cbn [negb].
  - subst addr. rewrite Hmiss.
    rewrite (bind_ok _ _ _ _ _ Hdisc). by apply Hsend.
  - rewrite Hnh, Hmiss. rewrite bool_decide_eq_true_2 by done.
    rewrite (bind_ok _ _ _ _ _ Hdisc). by apply Hsend.
Qed.

Lemma resolution_answered_witness :
  output_ip hostA 2 0x3250 ipC [x68; x69]
    (plugged ∅
       [arrive [reply_frame hostC (hwaddr hostA) (packed (iface_ip hostA))]])
  = (mkState
       (link (plugged ∅
          [arrive
             [reply_frame hostC (hwaddr hostA) (packed (iface_ip hostA))]]))
       (<[packed (iface_ip hostC) := hwaddr hostC]> ∅)
       false true []
       ([] ++
        [EvTx (request_frame hostA (packed (iface_ip hostC)));
         EvWait 100;
         EvTx (encode 0x3250 (hwaddr hostC) (hwaddr hostA) [x68; x69])]),
     Ok ()).
Proof.
  apply (resolution_answered hostA hostC 0 0x3250 ipC [x68; x69]
           (plugged ∅
              [arrive
                 [reply_frame hostC (hwaddr hostA)
                    (packed (iface_ip hostA))]])).
  - reflexivity.
  - reflexivity.
  - simpl. lia.
  - reflexivity.
  - reflexivity.
  - reflexivity.
  - lia.
  - by eexists.
  - reflexivity.
Defined.

(** ** Resolutions that fail *)

Lemma unanswered_aux (self : config) (d : nat) (p : Z) (addr dgram : bytes)
    (st : state) (target : bytes) :
  next_hop self addr = Ok target → arpTable st !! target = None →
  arpMessageRecieved st = false → silent self (inbox st) →
  ∃ (st' : state) (evs : list event),
    output_ip self (S (S d)) p addr dgram st = (st', Raise NoRouteToHost) ∧
    arpTable st' = arpTable st ∧
    arpMessageRecieved st' = false ∧
    trace st' = trace st ++ evs ∧
    actions evs = attempt self target st ++ attempt self target st
                  ++ attempt self target st.
Proof.
  intros Hnh Hmiss Hflag Hsilent.
  destruct (discover_loop_silent self d target 3 (set_timeout false st))
    as (evs & ib & Hrun & Hact); try done.
  cbn [replicate mjoin list_join] in Hact. rewrite app_nil_r in Hact.
  exists (upd evs ib (set_timeout false st)), evs.
  assert (arpIpDiscoverProcess self (rx self (S d)) target st
          = (upd evs ib (set_timeout false st), Raise NoRouteToHost))
    as Hdisc by exact Hrun.
  split; [|by repeat split].
  change (output_ip self (S (S d))) with
    (output_ip_body self (rx self (S d)) (output_ip self (S d))).
  unfold output_ip_body. unfold mbind at 1 2, M_bind at 1 2, lift, get.
  unfold next_hop in Hnh.
  destruct (IPv4Address addr) as [a|e]; [|done].
  cbn [mbind result_bind rbind] in Hnh. apply Ok_inj in Hnh.
  destruct (in_network self a); cbn [negb]; subst target.
  - rewrite Hmiss. apply bind_raise. exact Hdisc.
  - rewrite Hmiss. rewrite bool_decide_eq_true_2 by done.
    apply bind_raise. exact Hdisc.
Qed.

(** [rx] can raise NoRouteToHost.  A request for this adapter's address
    whose source address lies outside the adapter's subnet is learned, and
    the reply is routed to the gateway; when the gateway is not in the
    cache and does not answer, the calls into the link returning, the three
    attempts to resolve it are made from inside [rx], which then raises. *)
Theorem request_from_outside_raises
    (self other : config) (d : nat) (st : state) :
  length (hwaddr other) = 6%nat →
  0 ≤ iface_ip other < 2 ^ 32 → in_network self (iface_ip other) = false →
  packed (iface_ip other) ≠ packed (gateway self) →
  arpTable st !! packed (gateway self) = None →
  arpMessageRecieved st = false → silent self (inbox st) →
  ∃ (st' : state) (evs : list event),
    rx self (S (S (S d))) (request_frame other (packed (iface_ip self))) st
    = (st', Raise NoRouteToHost) ∧
    arpTable st'
    = <[packed (iface_ip other) := hwaddr other]> (arpTable st) ∧
    trace st' = trace st ++ evs ∧
    actions evs
    = attempt self (packed (gateway self)) st
      ++ attempt self (packed (gateway self)) st
      ++ attempt self (packed (gateway self)) st.
Proof.
  intros Ho Hip Hnet Hne Hmiss Hflag Hsilent.
  set (st1 := set_arpTable
                (<[packed (iface_ip other) := hwaddr other]> (arpTable st))
                st).
  destruct (unanswered_aux self d MARE_PROTONUM (packed (iface_ip other))
              (reply_payload self (hwaddr other) (packed (iface_ip other)))
              st1 (packed (gateway self)))
    as (st' & evs & Hrun & Htbl & _ & Htr & Hact); try done.
  { unfold next_hop. rewrite IPv4Address_packed_range by done.
    cbn [mbind result_bind rbind]. by rewrite Hnet. }
  { unfold st1. cbn [set_arpTable arpTable].
    by rewrite lookup_insert_ne. }
  exists st', evs. split; [|by repeat split].
  rewrite request_frame_encode.
  rewrite rx_encoded by done. rewrite bool_decide_eq_true_2 by done.
  rewrite arp_handler_encoded by done.
  rewrite request_payload_decode by (done || apply length_packed).
  cbv zeta.
  cbn [ArpFrame.init ArpFrame.dstIpAdr ArpFrame.sourceIpAdr
       ArpFrame.sourceMacAdr ArpFrame.dstMacAdr ArpFrame.isSuccess].
  rewrite bool_decide_eq_true_2 by done.
  rewrite (bool_decide_eq_false_2 ([] = ArpFrame.success_marker)) by done.
  cbn [andb]. unfold mbind, M_bind, modify. exact Hrun.
Qed.

Lemma request_from_outside_raises_witness :
  ∃ (st' : state) (evs : list event),
    rx hostA 3 (request_frame hostFar (packed (iface_ip hostA)))
       (plugged ∅ [])
    = (st', Raise NoRouteToHost) ∧
    arpTable st'
    = <[packed (iface_ip hostFar) := hwaddr hostFar]>
        (arpTable (plugged ∅ [])) ∧
    trace st' = trace (plugged ∅ []) ++ evs ∧
    actions evs
    = attempt hostA (packed (gateway hostA)) (plugged ∅ [])
      ++ attempt hostA (packed (gateway hostA)) (plugged ∅ [])
      ++ attempt hostA (packed (gateway hostA)) (plugged ∅ []).
Proof.
  apply (request_from_outside_raises hostA hostFar 0 (plugged ∅ [])).
  - reflexivity.
  - simpl. lia.
  - reflexivity.
  - discriminate.
  - reflexivity.
  - reflexivity.
  - constructor.
Defined.

Lemma discover_stale (self : config) (d : nat) (target : bytes) (st : state) :
  arpMessageRecieved st = true → silent self (inbox st) →
  ∃ evs ib,
    arpIpDiscoverProcess self (rx self (S d)) target st
    = (set_arpMessageRecieved false (upd evs ib (set_timeout false st)),
       Ok ()) ∧
    actions evs = attempt self target st ∧ silent self ib.
Proof.
  intros Hflag Hs. unfold arpIpDiscoverProcess.
  unfold mbind at 1, M_bind at 1, modify. cbn [discover_loop].
  change (ArpFrame.toBytes _) with (request_payload self target).
  set (st0 := set_timeout false st).
  destruct (tx_silent self d (request_frame self target) st0 Hs)
    as (evs1 & ib1 & Htx & Ha1 & Hs1).
  rewrite <- output_request in Htx.
  destruct (wait_silent self d (upd evs1 ib1 st0) eq_refl Hs1)
    as (evs2 & ib2 & Hw & Ha2 & Hs2).
  rewrite upd_upd in Hw.
  exists (evs1 ++ evs2), ib2. split; [|split; [|done]].
  - rewrite (bind_ok _ _ _ _ _ Htx), (bind_ok _ _ _ _ _ Hw).
    unfold mbind, M_bind, get, modify. unfold st0.
    cbn [upd arpMessageRecieved set_timeout]. by rewrite Hflag.
  - by rewrite actions_app, Ha1, Ha2.
Qed.

(** A success signal that is still pending when a resolution starts is
    taken for the answer.  With the flag set, nothing in the cache, nobody
    answering and every call into the link returning, the procedure returns
    after its first attempt as if resolved; [output_ip] then starts over,
    and raises NoRouteToHost only after three more attempts: four requests,
    four waits, and the flag is clear afterwards. *)
Theorem pending_signal_costs_an_attempt
    (self : config) (d : nat) (p : Z) (addr dgram : bytes) (st : state)
    (target : bytes) :
  next_hop self addr = Ok target → arpTable st !! target = None →
  arpMessageRecieved st = true → silent self (inbox st) →
  ∃ (st' : state) (evs : list event),
    output_ip self (S (S (S d))) p addr dgram st
    = (st', Raise NoRouteToHost) ∧
    arpTable st' = arpTable st ∧
    arpMessageRecieved st' = false ∧
    trace st' = trace st ++ evs ∧
    actions evs = attempt self target st ++ attempt self target st
                  ++ attempt self target st ++ attempt self target st.
Proof.
  intros Hnh Hmiss Hflag Hsilent.
  destruct (discover_stale self (S d) target st Hflag Hsilent)
    as (evs1 & ib1 & Hdisc & Ha1 & Hs1).
  set (st1 := set_arpMessageRecieved false
                (upd evs1 ib1 (set_timeout false st))) in *.
  assert (∀ addr', next_hop self addr' = Ok target →
    ∃ st' evs,
      output_ip self (S (S d)) p addr' dgram st1
      = (st', Raise NoRouteToHost) ∧
      arpTable st' = arpTable st ∧ arpMessageRecieved st' = false ∧
      trace st' = trace st ++ evs ∧
      actions evs = attempt self target st ++ attempt self target st
                    ++ attempt self target st ++ attempt self target st)
    as Hrec.
  { intros addr' Hnh'.
    destruct (unanswered_aux self d p addr' dgram st1 target)
      as (st' & evs2 & Hrun & Htbl & Hfl & Htr & Ha2); try done.
    exists st', (evs1 ++ evs2). split; [done|]. split; [done|].
    split; [done|]. split.
    - rewrite Htr. unfold st1. cbn [set_arpMessageRecieved upd trace].
      by rewrite app_assoc.
    - rewrite actions_app, Ha1, Ha2. reflexivity. }
  change (output_ip self (S (S (S d)))) with
    (output_ip_body self (rx self (S (S d))) (output_ip self (S (S d)))).
  unfold output_ip_body. unfold mbind at 1 2, M_bind at 1 2, lift, get.
  unfold next_hop in Hnh.
  destruct (IPv4Address addr) as [a|e] eqn:Ha; [|done].
  cbn [mbind result_bind rbind] in Hnh. apply Ok_inj in Hnh.
  destruct (in_network self a) eqn:Hnet; cbn [negb]; subst target.
  - rewrite Hmiss. rewrite (bind_ok _ _ _ _ _ Hdisc).
    apply Hrec. unfold next_hop. rewrite Ha.
    cbn [mbind result_bind rbind]. by rewrite Hnet.
  - rewrite Hmiss. rewrite bool_decide_eq_true_2 by done.
    rewrite (bind_ok _ _ _ _ _ Hdisc).
    apply Hrec. apply next_hop_gateway.
Qed.

Lemma pending_signal_costs_an_attempt_witness :
  ∃ (st' : state) (evs : list event),
    output_ip hostA 3 0x6789 nobody [x6e; x6f]
              (set_arpMessageRecieved true (plugged ∅ []))
    = (st', Raise NoRouteToHost) ∧
    arpTable st' = arpTable (set_arpMessageRecieved true (plugged ∅ [])) ∧
    arpMessageRecieved st' = false ∧
    trace st' = trace (set_arpMessageRecieved true (plugged ∅ [])) ++ evs ∧
    actions evs
    = attempt hostA nobody (set_arpMessageRecieved true (plugged ∅ []))
      ++ attempt hostA nobody (set_arpMessageRecieved true (plugged ∅ []))
      ++ attempt hostA nobody (set_arpMessageRecieved true (plugged ∅ []))
      ++ attempt hostA nobody (set_arpMessageRecieved true (plugged ∅ [])).
Proof.
  apply (pending_signal_costs_an_attempt hostA 0 0x6789 nobody [x6e; x6f]
           (set_arpMessageRecieved true (plugged ∅ [])) nobody).
  - reflexivity.
  - reflexivity.
  - reflexivity.
  - constructor.
Defined.

End AdapterExtra.
